(** * aisqlpp: the connection wrapper of [include/aisql_connection.hpp]

    A shallow embedding of the result-binding templates of class
    [aisqlpp::connection] ([raw_query_value], [execute_query_column],
    [execute_query_value], [execute_query_values]) together with the part of
    the Connector/C++ interface they call.  The driver is an interface
    (abstract classes [sql::Connection], [sql::Statement], [sql::ResultSet]),
    so it is a type class here and every theorem holds for every
    implementation of it. *)

From stdpp Require Import base decidable option list numbers strings.

Set Default Proof Using "Type".
Local Open Scope Z_scope.

(** ** Fixed-width integers *)

Module Int.

Definition wrap_unsigned (w z : Z) : Z := z mod 2 ^ w.

Definition wrap_signed (w z : Z) : Z :=
  (z + 2 ^ (w - 1)) mod 2 ^ w - 2 ^ (w - 1).

(** [uint32_t], [int32_t], [int64_t], [uint64_t] and the conversions
    between them. *)
Definition to_uint32 : Z → Z := wrap_unsigned 32.
Definition to_int32 : Z → Z := wrap_signed 32.
Definition to_uint64 : Z → Z := wrap_unsigned 64.
Definition to_int64 : Z → Z := wrap_signed 64.

Definition is_uint32 (z : Z) : Prop := 0 ≤ z < 2 ^ 32.

End Int.

(** ** Floating-point precision *)

Module Float.

(** The integer [z] rounded to [p] significant bits, to nearest and ties to
    even: what the conversion of an integer-valued [long double] to a binary
    format with a significand of [p] bits stores, the exponent range aside. *)
Definition round (p z : Z) : Z :=
  let a := Z.abs z in
  let drop := Z.log2 a + 1 - p in
  if drop <=? 0 then z
  else
    let unit := 2 ^ drop in
    let q := a / unit in
    let r := a mod unit in
    let q' :=
      if 2 * r <? unit then q
      else if unit <? 2 * r then q + 1
      else if Z.even q then q else q + 1 in
    Z.sgn z * (q' * unit).

(** IEEE 754 binary64 and binary32. *)
Definition to_double : Z → Z := round 53.
Definition to_float : Z → Z := round 24.

End Float.

(** ** Driver exceptions and results *)

(** [sql::SQLException]: [what()], [getErrorCode()], [getSQLState()]. *)
Record SQLException := mkSQLException {
  what : string;
  getErrorCode : Z;
  getSQLState : string;
}.

(** What a driver call does: it returns or it raises. *)
Inductive result (A : Type) :=
  | Ok (a : A)
  | Raise (e : SQLException).
Arguments Ok {A} a.
Arguments Raise {A} e.

(** ** The log *)

(** Modelled from the spec: [BOOST_LOG_T] is a macro of [aisql_general.hpp],
    which is not among the sources at hand.  Each [BOOST_LOG_T(error) << ...
    << endl] statement appends one line, kept as the sequence of the items
    streamed into it. *)
Inductive log_item :=
  | LText (s : string)
  | LNum (n : Z).

Definition log_line := list log_item.

(** ** Slot types *)

(** The types [T] a slot can have, as [typeid] tells them apart.  [TOther]
    stands for every other type the generic template compiles for
    ([short], [bool], [long long], ...); it carries [typeid(T).name()]. *)
Inductive ctype :=
  | TFloat | TDouble
  | TInt | TInt64
  | TUInt | TUInt64
  | TString
  | TOther (name : string).

(** [typeid(T) == typeid(U)] *)
Definition typeid_eq (T U : ctype) : bool :=
  match T, U with
  | TFloat, TFloat | TDouble, TDouble
  | TInt, TInt | TInt64, TInt64
  | TUInt, TUInt | TUInt64, TUInt64
  | TString, TString => true
  | TOther n, TOther m => String.eqb n m
  | _, _ => false
  end.

(** [typeid(T).name()], with the Itanium ABI names of the seven known types. *)
Definition typeid_name (T : ctype) : string :=
  match T with
  | TFloat => "f" | TDouble => "d"
  | TInt => "i" | TInt64 => "l"
  | TUInt => "j" | TUInt64 => "m"
  | TString => "NSt7__cxx1112basic_stringIcSt11char_traitsIcESaIcEEE"
  | TOther name => name
  end.

(** The supported set of the specification. *)
Definition supported (T : ctype) : bool :=
  match T with
  | TOther _ => false
  | _ => true
  end.

(** The accessor families of [sql::ResultSet]. *)
Inductive accessor := GetDouble | GetInt64 | GetUInt64 | GetString.

(** ** Driver calls, as they are observed *)

(** Result sets are heap objects of the driver; [handle] names one. *)
Definition handle := nat.

Inductive call :=
  | Call_isValid
  | Call_reconnect
  | Call_execute (sql : string)
  | Call_getResultSet
  | Call_rowsCount (h : handle)
  | Call_next (h : handle)
  | Call_get (a : accessor) (h : handle) (columnIndex : Z).

(** The calls that read a result set, with the result set they read. *)
Definition reads (c : call) : option handle :=
  match c with
  | Call_rowsCount h | Call_next h | Call_get _ h _ => Some h
  | _ => None
  end.

(** ** Outcomes of the member functions *)

(** A member function returns, lets a driver exception escape, or has no
    defined behaviour (a null [result_] dereferenced, an indeterminate value
    read); [OutOfFuel] is the loop bound of the model running out. *)
Inductive outcome (A : Type) :=
  | Ret (a : A)
  | Throw (e : SQLException)
  | Crash
  | OutOfFuel.
Arguments Ret {A} a.
Arguments Throw {A} e.
Arguments Crash {A}.
Arguments OutOfFuel {A}.

Section Model.

(** The floating-point types of the platform are kept abstract:
    [long_double] is what the double accessor returns ([long double
    getDouble(uint32_t)] in [sql::ResultSet]), [double] and [float] are the
    slot types, and [long_double_to_double] and [long_double_to_float] are
    [static_cast<double>] and [static_cast<float>] on a [long double], which
    round to the precision of the target type. *)
Context {long_double double float : Type}
  (long_double_to_double : long_double → double)
  (long_double_to_float : long_double → float).

(** ** Result sets *)

(** One field of one row, given by what each accessor of the driver does
    when it is asked for it.  The conversions are the driver's business. *)
Record cell := mkCell {
  cell_getDouble : result long_double;
  cell_getInt64 : result Z;
  cell_getUInt64 : result Z;
  cell_getString : result string;
}.

(** The rows a statement produced, and the exception the driver raises when
    an accessor is called off a row or with a column index outside the row. *)
Record table := mkTable {
  tbl_rows : list (list cell);
  tbl_invalid : SQLException;
}.

(** [sql::ResultSet]: a buffered table with a cursor.  [rs_pos = 0] is
    before the first row, [rs_pos = k] is on row [k] (counted from 1). *)
Record ResultSet := mkResultSet {
  rs_handle : handle;
  rs_table : table;
  rs_pos : nat;
}.

Definition rs_rows (rs : ResultSet) : list (list cell) := tbl_rows (rs_table rs).

(** The field under the cursor at a 1-based column index. *)
Definition rs_cell (rs : ResultSet) (columnIndex : Z) : option cell :=
  match rs_pos rs with
  | O => None
  | S k =>
      match rs_rows rs !! k with
      | Some row =>
          if decide (1 ≤ columnIndex) then row !! Z.to_nat (columnIndex - 1)
          else None
      | None => None
      end
  end.

Definition result_map {A B} (f : A → B) (r : result A) : result B :=
  match r with
  | Ok a => Ok (f a)
  | Raise e => Raise e
  end.

Definition rs_field {A} (get : cell → result A) (rs : ResultSet) (columnIndex : Z)
    : result A :=
  match rs_cell rs columnIndex with
  | Some c => get c
  | None => Raise (tbl_invalid (rs_table rs))
  end.

(** [getDouble], [getInt64], [getUInt64], [getString] of [sql::ResultSet];
    the integer accessors return an [int64_t] and a [uint64_t]. *)
Definition rs_getDouble : ResultSet → Z → result long_double :=
  rs_field cell_getDouble.
Definition rs_getInt64 (rs : ResultSet) (columnIndex : Z) : result Z :=
  result_map Int.to_int64 (rs_field cell_getInt64 rs columnIndex).
Definition rs_getUInt64 (rs : ResultSet) (columnIndex : Z) : result Z :=
  result_map Int.to_uint64 (rs_field cell_getUInt64 rs columnIndex).
Definition rs_getString : ResultSet → Z → result string := rs_field cell_getString.

(** [next()]: the cursor moves to the following row, if there is one. *)
Definition rs_next (rs : ResultSet) : bool * ResultSet :=
  if decide (rs_pos rs < length (rs_rows rs))%nat
  then (true, mkResultSet (rs_handle rs) (rs_table rs) (S (rs_pos rs)))
  else (false, mkResultSet (rs_handle rs) (rs_table rs) (S (length (rs_rows rs)))).

(** ** Values and objects *)

(** The content of a variable of each slot type; a variable of another type
    is kept as its object representation. *)
Inductive value :=
  | VFloat (f : float)
  | VDouble (d : double)
  | VInt (z : Z)
  | VInt64 (z : Z)
  | VUInt (z : Z)
  | VUInt64 (z : Z)
  | VString (s : string)
  | VOther (name : string) (repr : Z).

(** [static_cast<T>] applied to what each accessor returns.  The generic
    template only runs a cast in the branch of its own types. *)
Definition static_cast_double (T : ctype) (d : long_double) : option value :=
  match T with
  | TFloat => Some (VFloat (long_double_to_float d))
  | TDouble => Some (VDouble (long_double_to_double d))
  | _ => None
  end.

Definition static_cast_int64 (T : ctype) (z : Z) : option value :=
  match T with
  | TInt => Some (VInt (Int.to_int32 z))
  | TInt64 => Some (VInt64 z)
  | _ => None
  end.

Definition static_cast_uint64 (T : ctype) (z : Z) : option value :=
  match T with
  | TUInt => Some (VUInt (Int.to_uint32 z))
  | TUInt64 => Some (VUInt64 z)
  | _ => None
  end.

(** What a reference of the caller (or a local) points to. *)
Inductive obj :=
  | Indeterminate
  | Scalar (v : value)
  | Vector (elems : list value).

(** [T r_val;] *)
Definition default_init (T : ctype) : obj :=
  match T with
  | TString => Scalar (VString "")
  | _ => Indeterminate
  end.

Definition loc := nat.

(** ** The driver interface *)

(** [sql::Connection] and [sql::Statement], over the driver's own state.
    [isValid], [reconnect] and [execute] return a [bool]; [getResultSet]
    returns a pointer to a new result set, or a null pointer. *)
Class Driver (Session : Type) := {
  isValid : Session → result bool * Session;
  reconnect : Session → result bool * Session;
  execute : string → Session → result bool * Session;
  getResultSet : Session → result (option table) * Session;
}.

(** ** A scripted driver *)

(** A driver whose answers are written down in advance: what [isValid] and
    [reconnect] do, and what [execute] and [getResultSet] do for each
    statement text.  It is used to run the templates on concrete inputs. *)
Record scripted := mkScripted {
  on_isValid : result bool;
  on_reconnect : result bool;
  on_execute : string → result bool;
  on_getResultSet : string → result (option table);
  current : string;
}.

Definition scripted_reconnect (s : scripted) : result bool * scripted :=
  match on_reconnect s with
  | Ok true =>
      (Ok true,
       mkScripted (Ok true) (on_reconnect s) (on_execute s) (on_getResultSet s) (current s))
  | r => (r, s)
  end.

Definition scripted_execute (sql : string) (s : scripted) : result bool * scripted :=
  (on_execute s sql,
   mkScripted (on_isValid s) (on_reconnect s) (on_execute s) (on_getResultSet s) sql).

#[global] Instance scripted_driver : Driver scripted := {|
  isValid s := (on_isValid s, s);
  reconnect := scripted_reconnect;
  execute := scripted_execute;
  getResultSet s := (on_getResultSet s (current s), s);
|}.

(** A field that every accessor can read. *)
Definition field (d : long_double) (i u : Z) (s : string) : cell :=
  mkCell (Ok d) (Ok i) (Ok u) (Ok s).

(** A field on which every accessor raises. *)
Definition broken (e : SQLException) : cell :=
  mkCell (Raise e) (Raise e) (Raise e) (Raise e).

(** A live session that answers every statement with the same table. *)
Definition serving (t : table) : scripted :=
  mkScripted (Ok true) (Ok true) (λ _, Ok true) (λ _, Ok (Some t)) "".

(** A dropped session: [isValid] says no, [reconnect] does [r]. *)
Definition dropped (r : result bool) (t : table) : scripted :=
  mkScripted (Ok false) r (λ _, Ok true) (λ _, Ok (Some t)) "".

(** ** Sample inputs *)

Definition server_gone : SQLException :=
  mkSQLException "MySQL server has gone away" 2006 "HY000".

Definition invalid_column : SQLException :=
  mkSQLException "MySQL_ResultSet::getInt64: invalid value of 'columnIndex'" 0 "".

(** No row. *)
Definition no_rows : table := mkTable [] invalid_column.

(** One row with the columns a, b, c. *)
Definition row_abc (d : long_double) : table :=
  mkTable [[field d 2 3 "a"; field d 5 6 "b"; field d 8 9 "c"]] invalid_column.

(** Two rows of one column. *)
Definition two_rows (d : long_double) : table :=
  mkTable [[field d 2 3 "a"]; [field d 5 6 "b"]] invalid_column.

(** Three rows of one column; the accessors raise on the second. *)
Definition gap_rows (d : long_double) : table :=
  mkTable [[field d 2 3 "a"]; [broken server_gone]; [field d 5 6 "b"]] invalid_column.

Definition syntax_error : SQLException :=
  mkSQLException "You have an error in your SQL syntax" 1064 "42000".

(** A live session on which the dispatch of the statement [bad] raises and
    every other statement is answered with the same table. *)
Definition refusing (bad : string) (t : table) : scripted :=
  mkScripted (Ok true) (Ok true)
    (λ q, if String.eqb q bad then Raise syntax_error else Ok true)
    (λ _, Ok (Some t)) "".

(** A live session whose statements produce no result set. *)
Definition updating : scripted :=
  mkScripted (Ok true) (Ok true) (λ _, Ok false) (λ _, Ok None) "".

(** One row whose only column holds a number that does not fit in 32 bits. *)
Definition big_row (d : long_double) : table :=
  mkTable [[field d 4294967298 4294967298 "4294967298"]] invalid_column.

(** One row with the columns a, b, c; the accessors raise on b. *)
Definition row_a_c (d : long_double) : table :=
  mkTable [[field d 2 3 "a"; broken server_gone; field d 8 9 "c"]] invalid_column.

Section Connection.

Context {Session : Type} `{!Driver Session}.

(** ** State *)

(** The members of [connection] that the templates touch ([conn_] and
    [stmt_] are the driver session, [result_] is the owned result set), the
    memory the references point into, the log, and what is observed of the
    driver: the calls made, the number of result sets it has handed out and
    the result sets not yet deleted. *)
Record state := mkState {
  session : Session;
  result_ : option ResultSet;
  mem : list obj;
  log : list log_line;
  calls : list call;
  allocated : nat;
  live : list handle;
}.

Definition set_session (s : Session) (st : state) : state :=
  mkState s (result_ st) (mem st) (log st) (calls st) (allocated st) (live st).
Definition set_result_ (r : option ResultSet) (st : state) : state :=
  mkState (session st) r (mem st) (log st) (calls st) (allocated st) (live st).
Definition set_mem (m : list obj) (st : state) : state :=
  mkState (session st) (result_ st) m (log st) (calls st) (allocated st) (live st).
Definition set_log (l : list log_line) (st : state) : state :=
  mkState (session st) (result_ st) (mem st) l (calls st) (allocated st) (live st).
Definition set_calls (c : list call) (st : state) : state :=
  mkState (session st) (result_ st) (mem st) (log st) c (allocated st) (live st).
Definition set_heap (n : nat) (l : list handle) (st : state) : state :=
  mkState (session st) (result_ st) (mem st) (log st) (calls st) n l.

Definition observe (c : call) (st : state) : state :=
  set_calls (calls st ++ [c]) st.

(** A connection that has run no query yet. *)
Definition connected (s : Session) (m : list obj) : state :=
  mkState s None m [] [] 0%nat [].

(** ** The monad of the member functions *)

Definition M (A : Type) : Type := state → outcome A * state.

#[export] Instance M_ret : MRet M := λ A a st, (Ret a, st).

#[export] Instance M_bind : MBind M := λ A B f m st,
  match m st with
  | (Ret a, st') => f a st'
  | (Throw e, st') => (Throw e, st')
  | (Crash, st') => (Crash, st')
  | (OutOfFuel, st') => (OutOfFuel, st')
  end.

Definition crash {A} : M A := λ st, (Crash, st).
Definition out_of_fuel {A} : M A := λ st, (OutOfFuel, st).
Definition gets {A} (f : state → A) : M A := λ st, (Ret (f st), st).
Definition modify (f : state → state) : M unit := λ st, (Ret (), f st).

(** [try { body } catch (sql::SQLException &e) { handler }] *)
Definition try_catch {A} (body : M A) (handler : SQLException → M A) : M A :=
  λ st,
    match body st with
    | (Throw e, st') => handler e st'
    | r => r
    end.

Definition of_result {A} (r : result A) : outcome A :=
  match r with
  | Ok a => Ret a
  | Raise e => Throw e
  end.

(** A call into the connection or the statement. *)
Definition driver_call {A} (c : call) (f : Session → result A * Session) : M A :=
  λ st,
    let '(r, s) := f (session st) in
    (of_result r, set_session s (observe c st)).

Definition conn_isValid : M bool := driver_call Call_isValid isValid.
Definition conn_reconnect : M bool := driver_call Call_reconnect reconnect.
Definition stmt_execute (sql : string) : M bool :=
  driver_call (Call_execute sql) (execute sql).

(** [stmt_->getResultSet()]: the driver allocates the result set it returns. *)
Definition stmt_getResultSet : M (option ResultSet) :=
  t ← driver_call Call_getResultSet getResultSet;
  match t with
  | None => mret None
  | Some t =>
      h ← gets allocated;
      l ← gets live;
      modify (set_heap (S h) (h :: l));;
      mret (Some (mkResultSet h t 0))
  end.

(** [result_.reset(p)]: the result set owned so far is deleted, [p] is owned. *)
Definition result_reset (p : option ResultSet) : M unit :=
  modify (λ st,
    let kept :=
      match result_ st with
      | Some old => filter (λ h, h ≠ rs_handle old) (live st)
      | None => live st
      end in
    set_result_ p (set_heap (allocated st) kept st)).

(** [result_->m(...)] *)
Definition with_result {A} (k : ResultSet → M A) : M A :=
  r ← gets result_;
  match r with
  | Some rs => k rs
  | None => crash
  end.

Definition result_rowsCount : M Z :=
  with_result (λ rs,
    modify (observe (Call_rowsCount (rs_handle rs)));;
    mret (Z.of_nat (length (rs_rows rs)))).

Definition result_next : M bool :=
  with_result (λ rs,
    modify (observe (Call_next (rs_handle rs)));;
    modify (set_result_ (Some (rs_next rs).2));;
    mret (rs_next rs).1).

Definition result_get {A} (a : accessor) (get : ResultSet → Z → result A)
    (columnIndex : Z) : M A :=
  with_result (λ rs,
    modify (observe (Call_get a (rs_handle rs) columnIndex));;
    λ st, (of_result (get rs columnIndex), st)).

Definition result_getDouble : Z → M long_double := result_get GetDouble rs_getDouble.
Definition result_getInt64 : Z → M Z := result_get GetInt64 rs_getInt64.
Definition result_getUInt64 : Z → M Z := result_get GetUInt64 rs_getUInt64.
Definition result_getString : Z → M string := result_get GetString rs_getString.

(** [BOOST_LOG_T(error) << ... << endl] *)
Definition log_error (line : log_line) : M unit :=
  modify (λ st, set_log (log st ++ [line]) st).

(** ** References *)

(** [val = v] through a reference. *)
Definition store (l : loc) (o : obj) : M unit :=
  modify (λ st, set_mem (<[l := o]> (mem st)) st).

(** [val = static_cast<T>(x)]; a cast that the template does not run for
    [T] yields no value. *)
Definition assign (val : loc) (v : option value) : M unit :=
  match v with
  | Some v => store val (Scalar v)
  | None => crash
  end.

(** [vec.clear()] *)
Definition vec_clear (vec : loc) : M unit :=
  m ← gets mem;
  match m !! vec with
  | Some (Vector _) => store vec (Vector [])
  | _ => crash
  end.

(** [vec.push_back(r_val)] *)
Definition vec_push_back (vec r_val : loc) : M unit :=
  m ← gets mem;
  match m !! vec, m !! r_val with
  | Some (Vector elems), Some (Scalar v) => store vec (Vector (elems ++ [v]))
  | _, _ => crash
  end.

(** A local variable: it lives at the end of the memory from its
    declaration to the end of its block, however the block is left. *)
Definition with_local {A} (init : obj) (block : loc → M A) : M A :=
  λ st,
    let r := length (mem st) in
    let '(out, st') := block r (set_mem (mem st ++ [init]) st) in
    (out, set_mem (take r (mem st')) st').

(** ** [raw_query_value]: one slot *)

(** The primary template (lines 85-110). *)
Definition raw_query_value_primary (T : ctype) (idx : Z) (val : loc) : M bool :=
  if typeid_eq T TFloat || typeid_eq T TDouble then
    d ← result_getDouble idx;
    assign val (static_cast_double T d);;
    mret true
  else if typeid_eq T TInt || typeid_eq T TInt64 then
    z ← result_getInt64 idx;
    assign val (static_cast_int64 T z);;
    mret true
  else if typeid_eq T TUInt || typeid_eq T TUInt64 then
    z ← result_getUInt64 idx;
    assign val (static_cast_uint64 T z);;
    mret true
  else
    log_error [LText "Unsupported type: "; LText (typeid_name T)];;
    mret false.

(** The explicit specialization for [std::string] (lines 115-121); the
    column index goes through [int32_t] and back to the [uint32_t]
    parameter of [getString]. *)
Definition raw_query_value_string (idx : Z) (val : loc) : M bool :=
  s ← result_getString (Int.to_uint32 (Int.to_int32 idx));
  assign val (Some (VString s));;
  mret true.

(** [raw_query_value(idx, val)] for [T& val]: the specialization is chosen
    for [std::string], the primary template for every other type. *)
Definition raw_query_value (T : ctype) (idx : Z) (val : loc) : M bool :=
  match T with
  | TString => raw_query_value_string idx val
  | _ => raw_query_value_primary T idx val
  end.

(** A slot of a call: its static type and the variable it refers to. *)
Definition slot : Type := ctype * loc.

(** ** [raw_query_value]: several slots (lines 200-206) *)

(** [raw_query_value(idx, val, rest...)].  With an empty pack overload
    resolution takes the one-slot template; [idx + 1] is computed in
    [uint32_t]. *)
Fixpoint raw_query_value_variadic (idx : Z) (val : slot) (rest : list slot) : M bool :=
  match rest with
  | [] => raw_query_value val.1 idx val.2
  | next :: rest' =>
      raw_query_value val.1 idx val.2;;
      raw_query_value_variadic (Int.to_uint32 (idx + 1)) next rest'
  end.

(** ** The catch block shared by the three templates *)

Definition log_sql_exception (sql : string) (e : SQLException) : M unit :=
  log_error [LText " STMT: "; LText sql];;
  log_error [LText "# ERR: "; LText (what e)];;
  log_error [LText " (MySQL error code: "; LNum (getErrorCode e)];;
  log_error [LText ", SQLState: "; LText (getSQLState e); LText " )"].

Definition catch_SQLException (sql : string) (e : SQLException) : M bool :=
  log_sql_exception sql e;;
  mret false.

(** ** [execute_query_column] (lines 124-159) *)

(** [while (result_->next()) { ... }] with the local [ret_flag]; the bound
    on the iterations is given by the caller. *)
Fixpoint while_result_next (fuel : nat) (body : bool → M bool) (ret_flag : bool)
    : M bool :=
  match fuel with
  | O => out_of_fuel
  | S fuel' =>
      more ← result_next;
      if more : bool then
        ret_flag' ← body ret_flag;
        while_result_next fuel' body ret_flag'
      else mret ret_flag
  end.

(** The rows of the current result set bound the iterations of the loop. *)
Definition loop_bound (st : state) : nat :=
  match result_ st with
  | Some rs => S (length (rs_rows rs))
  | None => 1%nat
  end.

Definition execute_query_column_try (T : ctype) (sql : string) (vec : loc) : M bool :=
  valid ← conn_isValid;
  (if negb valid then conn_reconnect;; mret () else mret ());;
  stmt_execute sql;;
  p ← stmt_getResultSet;
  result_reset p;;
  n ← result_rowsCount;
  if bool_decide (n = 0) then mret false
  else
    vec_clear vec;;
    with_local (default_init T) (λ r_val,
      fuel ← gets loop_bound;
      while_result_next fuel (λ ret_flag,
        ok ← raw_query_value T 1 r_val;
        if ok : bool then vec_push_back vec r_val;; mret true
        else mret ret_flag) false).

Definition execute_query_column (T : ctype) (sql : string) (vec : loc) : M bool :=
  try_catch (execute_query_column_try T sql vec) (catch_SQLException sql).

(** ** [execute_query_value] (lines 161-194) *)

Definition execute_query_value_try (T : ctype) (sql : string) (val : loc) : M bool :=
  valid ← conn_isValid;
  (if negb valid then conn_reconnect;; mret () else mret ());;
  stmt_execute sql;;
  p ← stmt_getResultSet;
  result_reset p;;
  n ← result_rowsCount;
  if bool_decide (n = 0) then mret false
  else
    n ← result_rowsCount;
    if bool_decide (n ≠ 1) then
      n ← result_rowsCount;
      log_error [LText "Error rows count:"; LNum n];;
      mret false
    else
      more ← result_next;
      if more : bool then raw_query_value T 1 val
      else mret false.

Definition execute_query_value (T : ctype) (sql : string) (val : loc) : M bool :=
  try_catch (execute_query_value_try T sql val) (catch_SQLException sql).

(** ** [execute_query_values] (lines 208-241) *)

(** The pack [rest...] is not empty: [raw_query_value(1)] has no overload. *)
Definition execute_query_values_try (sql : string) (val : slot) (rest : list slot)
    : M bool :=
  valid ← conn_isValid;
  (if negb valid then conn_reconnect;; mret () else mret ());;
  stmt_execute sql;;
  p ← stmt_getResultSet;
  result_reset p;;
  n ← result_rowsCount;
  if bool_decide (n = 0) then mret false
  else
    n ← result_rowsCount;
    if bool_decide (n ≠ 1) then
      n ← result_rowsCount;
      log_error [LText "Error rows count:"; LNum n];;
      mret false
    else
      more ← result_next;
      if more : bool then raw_query_value_variadic 1 val rest
      else mret false.

Definition execute_query_values (sql : string) (val : slot) (rest : list slot)
    : M bool :=
  try_catch (execute_query_values_try sql val rest) (catch_SQLException sql).

(** ** Notions used to state the properties *)

(** The first statements of each of the three try blocks (lines 129-133,
    166-170, 213-217): the liveness check, the reconnect, the dispatch of
    the statement and the reset of [result_]. *)
Definition open_query (sql : string) : M unit :=
  valid ← conn_isValid;
  (if negb valid then conn_reconnect;; mret () else mret ());;
  stmt_execute sql;;
  p ← stmt_getResultSet;
  result_reset p.

(** The binding table of the specification: the accessor family of a slot
    type, and the value a slot of that type receives from the column
    [columnIndex] of the row under the cursor. *)
Definition binding (T : ctype) (rs : ResultSet) (columnIndex : Z)
    : option (accessor * result value) :=
  match T with
  | TFloat =>
      Some (GetDouble,
            result_map (λ d, VFloat (long_double_to_float d))
              (rs_getDouble rs columnIndex))
  | TDouble =>
      Some (GetDouble,
            result_map (λ d, VDouble (long_double_to_double d))
              (rs_getDouble rs columnIndex))
  | TInt =>
      Some (GetInt64,
            result_map (λ z, VInt (Int.to_int32 z)) (rs_getInt64 rs columnIndex))
  | TInt64 => Some (GetInt64, result_map VInt64 (rs_getInt64 rs columnIndex))
  | TUInt =>
      Some (GetUInt64,
            result_map (λ z, VUInt (Int.to_uint32 z)) (rs_getUInt64 rs columnIndex))
  | TUInt64 => Some (GetUInt64, result_map VUInt64 (rs_getUInt64 rs columnIndex))
  | TString => Some (GetString, result_map VString (rs_getString rs columnIndex))
  | TOther _ => None
  end.

(** The log line of the unsupported-type branch. *)
Definition unsupported_line (T : ctype) : log_line :=
  [LText "Unsupported type: "; LText (typeid_name T)].

(** The log line of the row-count check. *)
Definition rows_count_line (n : nat) : log_line :=
  [LText "Error rows count:"; LNum (Z.of_nat n)].

(** The four log lines of the catch block. *)
Definition exception_lines (sql : string) (e : SQLException) : list log_line :=
  [ [LText " STMT: "; LText sql];
    [LText "# ERR: "; LText (what e)];
    [LText " (MySQL error code: "; LNum (getErrorCode e)];
    [LText ", SQLState: "; LText (getSQLState e); LText " )"] ].

(** The state after one slot has been filled from a column: the accessor
    call is observed and the variable holds the value. *)
Definition filled (a : accessor) (rs : ResultSet) (columnIndex : Z) (val : loc)
    (v : value) (st : state) : state :=
  set_mem (<[val := Scalar v]> (mem st))
    (observe (Call_get a (rs_handle rs) columnIndex) st).

(** Slot 1 from column [i], slot 2 from column [i + 1], and so on, in the
    words of the specification: the state after every slot has been filled
    in turn. *)
Fixpoint fill_slots (rs : ResultSet) (i : Z) (slots : list slot) (st : state) : state :=
  match slots with
  | [] => st
  | (T, val) :: slots' =>
      fill_slots rs (i + 1) slots'
        match binding T rs i with
        | Some (a, Ok v) => filled a rs i val v st
        | _ => st
        end
  end.

(** The accessor calls that go with it: one per slot of a type in the
    binding table, at the columns [i], [i + 1], ... in this order. *)
Fixpoint column_calls (rs : ResultSet) (i : Z) (slots : list slot) : list call :=
  match slots with
  | [] => []
  | (T, _) :: slots' =>
      match binding T rs i with
      | Some (a, _) => [Call_get a (rs_handle rs) i]
      | None => []
      end ++ column_calls rs (i + 1) slots'
  end.

(** Every slot has a supported type and its column can be read. *)
Fixpoint readable (rs : ResultSet) (i : Z) (slots : list slot) : Prop :=
  match slots with
  | [] => True
  | (T, _) :: slots' =>
      (∃ a v, binding T rs i = Some (a, Ok v)) ∧ readable rs (i + 1) slots'
  end.

(** The result set [t] with the cursor on row [k] (counted from 1). *)
Definition on_row (h : handle) (t : table) (k : nat) : ResultSet := mkResultSet h t k.

(** Column 1 of the rows [k + 1], ..., [k + n] of [t] read as [T], in
    result order: the values of the rows before the first row on which the
    accessor raises, and the exception raised there, if any.  A type outside
    the binding table contributes no value. *)
Fixpoint collect (T : ctype) (t : table) (k n : nat) : list value * option SQLException :=
  match n with
  | O => ([], None)
  | S n' =>
      match binding T (on_row 0%nat t (S k)) 1 with
      | Some (_, Ok v) =>
          let '(vs, e) := collect T t (S k) n' in (v :: vs, e)
      | Some (_, Raise e) => ([], Some e)
      | None => collect T t (S k) n'
      end
  end.

(** The state in which the extraction of a one-row result starts: the row
    count has been read twice and the cursor moved to the only row. *)
Definition checked_one_row (rs : ResultSet) (st : state) : state :=
  set_result_ (Some (on_row (rs_handle rs) (rs_table rs) 1))
    (observe (Call_next (rs_handle rs))
       (observe (Call_rowsCount (rs_handle rs))
          (observe (Call_rowsCount (rs_handle rs)) st))).

(** The ownership invariant of [result_]: the result sets alive are the
    one [result_] owns, if it owns one. *)
Definition owns_its_result (st : state) : Prop :=
  match result_ st with
  | Some rs => live st = [rs_handle rs] ∧ (rs_handle rs < allocated st)%nat
  | None => live st = []
  end.

(** What it means for a run of a template from [st] to check the session
    before anything else: the first call is [isValid]; it is made once; when
    it says yes no reconnect is made and the statement is dispatched next;
    when it says no one reconnect follows, and either it raises, nothing
    more is called and the run returns false, or it returns and the
    statement is dispatched next. *)
Definition liveness_checked_first (sql : string) (st : state)
    (r : outcome bool * state) : Prop :=
  ∃ cs, calls r.2 = calls st ++ Call_isValid :: cs ∧
    (Call_isValid ∉ cs) ∧
    (∀ s1, isValid (session st) = (Ok true, s1) →
       (Call_reconnect ∉ cs) ∧ ∃ cs', cs = Call_execute sql :: cs') ∧
    (∀ s1, isValid (session st) = (Ok false, s1) →
       ∃ cs', cs = Call_reconnect :: cs' ∧ (Call_reconnect ∉ cs') ∧
         (∀ e s2, reconnect s1 = (Raise e, s2) → cs' = [] ∧ r.1 = Ret false) ∧
         (∀ b s2, reconnect s1 = (Ok b, s2) →
            ∃ cs'', cs' = Call_execute sql :: cs'')).

(** What every run of a template from [st] keeps, whatever the session
    answers: the ownership invariant holds afterwards, so at most one result
    set is alive; the calls of the run are first calls that read no result
    set, [getResultSet] among them if anything is read at all, and then
    reads of the result set this very run obtained, which is a new one and
    the one [result_] owns in the end. *)
Definition at_most_one_result (st : state) (r : outcome bool * state) : Prop :=
  owns_its_result r.2 ∧
  (length (live r.2) ≤ 1)%nat ∧
  (∀ old, result_ st = Some old → rs_handle old ≠ allocated st) ∧
  ∃ cs1 cs2, calls r.2 = calls st ++ cs1 ++ cs2 ∧
    Forall (λ c, reads c = None) cs1 ∧
    Forall (λ c, reads c = Some (allocated st)) cs2 ∧
    (cs2 ≠ [] →
       Call_getResultSet ∈ cs1 ∧
       rs_handle <$> result_ r.2 = Some (allocated st) ∧
       live r.2 = [allocated st]).

(** The session [s] lets the statement through and hands back [p], a
    pointer to a new result set or a null pointer: the liveness check, the
    reconnect if one is made, the dispatch and [getResultSet] all return. *)
Definition delivers (sql : string) (s : Session) (p : option table) : Prop :=
  ∃ valid s1 s2 b s3 s4,
    isValid s = (Ok valid, s1) ∧
    (if valid : bool then s2 = s1 else ∃ b', reconnect s1 = (Ok b', s2)) ∧
    execute sql s2 = (Ok b, s3) ∧
    getResultSet s3 = (Ok p, s4).

(** What it means for a run of a template from [st] to supersede the
    result set owned before.  Whatever the session answers, the run keeps
    [at_most_one_result].  When the session delivers a result set, the run
    has replaced the owned one: [result_] owns the new result set, which is
    the only one alive, the one owned before is deleted, and the calls of
    the run are calls that read nothing up to [getResultSet], then the row
    count of the new result set and further reads of it, and none of the
    old one.  When [getResultSet] returns a null pointer, [result_] has
    been reset to it, the result set owned before is deleted all the same,
    and the row-count test dereferences the null pointer. *)
Definition result_superseded (sql : string) (st : state) (r : outcome bool * state)
    : Prop :=
  at_most_one_result st r ∧
  (∀ t, delivers sql (session st) (Some t) →
     (∃ pos, result_ r.2 = Some (mkResultSet (allocated st) t pos)) ∧
     live r.2 = [allocated st] ∧
     (∀ old, result_ st = Some old → rs_handle old ∉ live r.2) ∧
     ∃ cs1 cs2,
       calls r.2
       = calls st ++ cs1 ++ Call_getResultSet :: Call_rowsCount (allocated st) :: cs2 ∧
       Forall (λ c, reads c = None) cs1 ∧
       Forall (λ c, reads c = Some (allocated st)) cs2) ∧
  (delivers sql (session st) None →
     r.1 = Crash ∧ result_ r.2 = None ∧ live r.2 = []).

(** What the three templates do when an exception [e] is raised before
    the result set is installed: they return false and log [e]. *)
Definition caught_in_open_query (sql : string) (st : state) (e : SQLException) : Prop :=
  ∃ st1,
    (∀ T vec,
       execute_query_column T sql vec st
       = (Ret false, set_log (log st ++ exception_lines sql e) st1)) ∧
    (∀ T val,
       execute_query_value T sql val st
       = (Ret false, set_log (log st ++ exception_lines sql e) st1)) ∧
    (∀ val rest,
       execute_query_values sql val rest st
       = (Ret false, set_log (log st ++ exception_lines sql e) st1)).

(** [st'] comes from [st] by reading the current result set only: the
    driver session, the heap of result sets and the owner of the current one
    are as before, and every call made in between reads that result set. *)
Definition reading (st st' : state) : Prop :=
  session st' = session st ∧
  rs_handle <$> result_ st' = rs_handle <$> result_ st ∧
  live st' = live st ∧
  allocated st' = allocated st ∧
  ∃ cs, calls st' = calls st ++ cs ∧
        Forall (λ c, is_Some (reads c) ∧ reads c = rs_handle <$> result_ st) cs.

(** A computation that only reads the current result set. *)
Definition quiet {A} (m : M A) : Prop := ∀ st, reading st (m st).2.

(** ** Notions for the further properties *)

(** [get_result_set()] (line 42): the pointer [result_] holds; nothing is
    changed. *)
Definition get_result_set : M (option ResultSet) := gets result_.

(** No accessor raises on the columns [i], [i + 1], ... read for the slots. *)
Fixpoint no_raise (rs : ResultSet) (i : Z) (slots : list slot) : Prop :=
  match slots with
  | [] => True
  | (T, _) :: slots' =>
      (∀ a e, binding T rs i ≠ Some (a, Raise e)) ∧ no_raise rs (i + 1) slots'
  end.

(** The last slot of a pack. *)
Definition last_slot (val : slot) (rest : list slot) : slot := List.last rest val.

(** The variables outside [L] hold in [st'] what they hold in [st], and no
    variable has appeared or disappeared. *)
Definition untouched_outside (L : list loc) (st st' : state) : Prop :=
  length (mem st') = length (mem st) ∧
  ∀ l, l ∉ L → mem st' !! l = mem st !! l.

(** A computation that writes to the variables of [L] at most. *)
Definition frames {A} (L : list loc) (m : M A) : Prop :=
  ∀ st, untouched_outside L st (m st).2.

(** A computation that leaves [result_] as it is. *)
Definition keeps_result {A} (m : M A) : Prop :=
  ∀ st, result_ (m st).2 = result_ st.

(** A computation that may move the cursor but leaves the table [result_]
    points to as it is. *)
Definition keeps_table {A} (m : M A) : Prop :=
  ∀ st, rs_table <$> result_ (m st).2 = rs_table <$> result_ st.

(** A call of one of the three templates, and a caller that makes such
    calls one after the other for as long as they return. *)
Inductive request :=
  | Column (T : ctype) (sql : string) (vec : loc)
  | Value (T : ctype) (sql : string) (val : loc)
  | Values (sql : string) (val : slot) (rest : list slot).

Definition serve (q : request) : M bool :=
  match q with
  | Column T sql vec => execute_query_column T sql vec
  | Value T sql val => execute_query_value T sql val
  | Values sql val rest => execute_query_values sql val rest
  end.

Fixpoint serve_all (qs : list request) (st : state) : state :=
  match qs with
  | [] => st
  | q :: qs' =>
      match serve q st with
      | (Ret _, st') => serve_all qs' st'
      | (_, st') => st'
      end
  end.

(** A computation that comes to an end within the bound of its loops. *)
Definition terminates {A} (m : M A) : Prop := ∀ st, (m st).1 ≠ OutOfFuel.

(** * Properties *)

(** ** Fixed-width integers and rounding *)

(** An integer that fits the significand is stored as it is. *)
Lemma round_exact p z : 0 < p → Z.abs z < 2 ^ p → Float.round p z = z.
Proof.
  intros Hp Hz. unfold Float.round. cbv zeta.
  assert (Z.log2 (Z.abs z) + 1 - p ≤ 0) as Hdrop.
  { destruct (decide (Z.abs z = 0)) as [->|Hne]; [cbn; lia|].
    assert (Z.log2 (Z.abs z) < p); [|lia].
    apply Z.log2_lt_pow2; lia. }
  by rewrite (proj2 (Z.leb_le _ _) Hdrop).
Qed.

Lemma to_uint32_id z : Int.is_uint32 z → Int.to_uint32 z = z.
Proof. intros Hz. apply Z.mod_small. exact Hz. Qed.

(** [static_cast<int32_t>] followed by the implicit conversion back to the
    [uint32_t] parameter of the accessor is the identity on [uint32_t]. *)
Lemma uint32_via_int32 z : Int.is_uint32 z → Int.to_uint32 (Int.to_int32 z) = z.
Proof.
  unfold Int.is_uint32, Int.to_uint32, Int.to_int32, Int.wrap_unsigned, Int.wrap_signed.
  intros Hz. change (2 ^ (32 - 1)) with 2147483648. change (2 ^ 32) with 4294967296 in *.
  destruct (decide (z < 2147483648)) as [Hlt|Hge].
  - rewrite (Z.mod_small (z + _)) by lia.
    replace (z + 2147483648 - 2147483648) with z by lia.
    apply Z.mod_small. lia.
  - replace (z + 2147483648) with ((z - 2147483648) + 1 * 4294967296) by lia.
    rewrite Z.mod_add by lia. rewrite (Z.mod_small (z - _)) by lia.
    replace (z - 2147483648 - 2147483648) with (z + (-1) * 4294967296) by lia.
    rewrite Z.mod_add by lia. apply Z.mod_small. lia.
Qed.

(** ** Running the monad *)

Ltac unfold_monad :=
  unfold mbind, M_bind, mret, M_ret, gets, modify, crash, out_of_fuel in *.

Ltac unfold_prims :=
  unfold result_getDouble, result_getInt64, result_getUInt64, result_getString,
    result_get, result_rowsCount, result_next, with_result, log_error, assign,
    store in *.

Lemma bind_ret {A B} (m : M A) (f : A → M B) (st st' : state) (a : A) :
  m st = (Ret a, st') → (m ≫= f) st = f a st'.
Proof. intros H. unfold_monad. by rewrite H. Qed.

Lemma bind_throw {A B} (m : M A) (f : A → M B) (st st' : state) e :
  m st = (Throw e, st') → (m ≫= f) st = (Throw e, st').
Proof. intros H. unfold_monad. by rewrite H. Qed.

Lemma bind_assoc {A B C} (m : M A) (f : A → M B) (g : B → M C) (st : state) :
  ((m ≫= f) ≫= g) st = (m ≫= λ a, f a ≫= g) st.
Proof. unfold_monad. by destruct (m st) as [[]]. Qed.

Lemma catch_SQLException_run sql e (st : state) :
  catch_SQLException sql e st
  = (Ret false, set_log (log st ++ exception_lines sql e) st).
Proof.
  unfold catch_SQLException, log_sql_exception, exception_lines, log_error.
  unfold_monad. cbn. unfold set_log. cbn. do 2 f_equal.
  by rewrite <- !app_assoc.
Qed.

(** ** One slot *)

(** What [raw_query_value] does, read off the binding table. *)
Lemma raw_query_value_run T idx val (st : state) rs :
  result_ st = Some rs →
  Int.is_uint32 idx →
  raw_query_value T idx val st =
    match binding T rs idx with
    | Some (a, Ok v) => (Ret true, filled a rs idx val v st)
    | Some (a, Raise e) => (Throw e, observe (Call_get a (rs_handle rs) idx) st)
    | None => (Ret false, set_log (log st ++ [unsupported_line T]) st)
    end.
Proof.
  intros Hrs Hidx.
  destruct T; cbn [raw_query_value binding];
    unfold raw_query_value_primary, raw_query_value_string, typeid_eq; cbn;
    try rewrite (uint32_via_int32 idx Hidx);
    unfold_prims; unfold_monad; cbn; rewrite ?Hrs; cbn;
    unfold rs_getInt64, rs_getUInt64, rs_getDouble, rs_getString, filled;
    try (destruct (rs_field _ rs idx); reflexivity).
  reflexivity.
Qed.

(** ** Computations that only read the current result set *)

Lemma reading_refl (st : state) : reading st st.
Proof.
  repeat split. exists []. split; [by rewrite app_nil_r | constructor].
Qed.

Lemma reading_trans (st1 st2 st3 : state) :
  reading st1 st2 → reading st2 st3 → reading st1 st3.
Proof.
  intros (Hs1 & Hr1 & Hl1 & Ha1 & cs1 & Hc1 & Hf1) (Hs2 & Hr2 & Hl2 & Ha2 & cs2 & Hc2 & Hf2).
  repeat split; try congruence.
  exists (cs1 ++ cs2). split.
  - rewrite Hc2, Hc1. by rewrite app_assoc.
  - apply Forall_app. split; [done|]. by rewrite <- Hr1.
Qed.

Lemma reading_same (st st' : state) :
  session st' = session st → result_ st' = result_ st → live st' = live st →
  allocated st' = allocated st → calls st' = calls st → reading st st'.
Proof.
  intros Hs Hr Hl Ha Hc. repeat split; try done; try congruence.
  exists []. split; [by rewrite app_nil_r | constructor].
Qed.

Lemma quiet_ret {A} (a : A) : quiet (mret a).
Proof. intros st. apply reading_refl. Qed.

Lemma quiet_bind {A B} (m : M A) (f : A → M B) :
  quiet m → (∀ a, quiet (f a)) → quiet (m ≫= f).
Proof.
  intros Hm Hf st. specialize (Hm st). unfold_monad.
  destruct (m st) as [[a|e| |] st1]; cbn in *; try done.
  eapply reading_trans; [exact Hm | apply Hf].
Qed.

Lemma quiet_crash {A} : quiet (@crash A).
Proof. intros st. apply reading_refl. Qed.

Lemma quiet_out_of_fuel {A} : quiet (@out_of_fuel A).
Proof. intros st. apply reading_refl. Qed.

Lemma quiet_gets {A} (f : state → A) : quiet (gets f).
Proof. intros st. apply reading_refl. Qed.

Lemma quiet_log_error line : quiet (log_error line).
Proof. intros st. by apply reading_same. Qed.

Lemma quiet_store l o : quiet (store l o).
Proof. intros st. by apply reading_same. Qed.

Lemma quiet_assign val v : quiet (assign val v).
Proof. destruct v; [apply quiet_store | apply quiet_crash]. Qed.

Lemma quiet_vec_clear vec : quiet (vec_clear vec).
Proof.
  intros st. unfold vec_clear. unfold_monad. cbn.
  destruct (mem st !! vec) as [[]|]; by apply reading_same.
Qed.

Lemma quiet_vec_push_back vec r_val : quiet (vec_push_back vec r_val).
Proof.
  intros st. unfold vec_push_back. unfold_monad. cbn.
  destruct (mem st !! vec) as [[]|]; try apply reading_refl.
  destruct (mem st !! r_val) as [[]|]; by apply reading_same.
Qed.

Lemma reading_observe (st : state) rs c :
  result_ st = Some rs → reads c = Some (rs_handle rs) → reading st (observe c st).
Proof.
  intros Hrs Hc. repeat split. exists [c]. split; [done|].
  constructor; [|constructor]. rewrite Hc, Hrs. split; [by eexists | done].
Qed.

Lemma quiet_result_rowsCount : quiet result_rowsCount.
Proof.
  intros st. unfold_prims. unfold_monad. cbn.
  destruct (result_ st) as [rs|] eqn:Hrs; cbn; [|apply reading_refl].
  by apply (reading_observe st rs).
Qed.

Lemma quiet_result_next : quiet result_next.
Proof.
  intros st. unfold_prims. unfold_monad. cbn.
  destruct (result_ st) as [rs|] eqn:Hrs; cbn; [|apply reading_refl].
  destruct (reading_observe st rs (Call_next (rs_handle rs)) Hrs eq_refl)
    as (Hs & Hr & Hl & Ha & Hc).
  repeat split; try done.
  cbn. rewrite Hrs. cbn. unfold rs_next. by case_decide.
Qed.

Lemma quiet_result_get {A} a (get : ResultSet → Z → result A) idx :
  quiet (result_get a get idx).
Proof.
  intros st. unfold_prims. unfold_monad. cbn.
  destruct (result_ st) as [rs|] eqn:Hrs; cbn; [|apply reading_refl].
  by apply (reading_observe st rs).
Qed.

Lemma quiet_try_catch {A} (body : M A) handler :
  quiet body → (∀ e, quiet (handler e)) → quiet (try_catch body handler).
Proof.
  intros Hb Hh st. specialize (Hb st). unfold try_catch.
  destruct (body st) as [[a|e| |] st1]; cbn in *; try done.
  eapply reading_trans; [exact Hb | apply Hh].
Qed.

Lemma quiet_with_local {A} init (block : loc → M A) :
  (∀ r, quiet (block r)) → quiet (with_local init block).
Proof.
  intros Hb st. unfold with_local.
  specialize (Hb (length (mem st)) (set_mem (mem st ++ [init]) st)).
  destruct (block _ _) as [out st1]. exact Hb.
Qed.

Lemma quiet_catch_SQLException sql e : quiet (catch_SQLException sql e).
Proof. intros st. rewrite catch_SQLException_run. by apply reading_same. Qed.

Lemma quiet_raw_query_value T idx val : quiet (raw_query_value T idx val).
Proof.
  destruct T; cbn [raw_query_value];
    unfold raw_query_value_primary, raw_query_value_string, result_getDouble,
      result_getInt64, result_getUInt64, result_getString;
    cbn [typeid_eq orb];
    repeat first
      [ apply quiet_result_get | apply quiet_assign | apply quiet_log_error
      | apply quiet_ret
      | apply quiet_bind; [|intros ?] ].
Qed.

Lemma quiet_raw_query_value_variadic rest :
  ∀ idx val, quiet (raw_query_value_variadic idx val rest).
Proof.
  induction rest as [|next rest IH]; intros idx val; cbn.
  - apply quiet_raw_query_value.
  - apply quiet_bind; [apply quiet_raw_query_value | intros _; apply IH].
Qed.

Lemma quiet_while_result_next fuel body :
  (∀ b, quiet (body b)) → ∀ ret_flag, quiet (while_result_next fuel body ret_flag).
Proof.
  intros Hbody. induction fuel as [|fuel IH]; intros ret_flag; cbn.
  - apply quiet_out_of_fuel.
  - apply quiet_bind; [apply quiet_result_next|]. intros [|].
    + apply quiet_bind; [apply Hbody | apply IH].
    + apply quiet_ret.
Qed.

(** ** The common opening of the three templates *)

Lemma open_query_then {A} (k : M A) sql (st : state) :
  (valid ← conn_isValid;
   (if negb valid then conn_reconnect;; mret () else mret ());;
   stmt_execute sql;;
   p ← stmt_getResultSet;
   result_reset p;;
   k) st
  = (open_query sql ≫= λ _, k) st.
Proof.
  unfold open_query. unfold_monad.
  destruct (conn_isValid st) as [[[|]| | |] st1]; cbn; try done.
  - destruct (stmt_execute sql st1) as [[?| | |] st2]; cbn; try done.
    destruct (stmt_getResultSet st2) as [[?| | |] st3]; cbn; done.
  - destruct (conn_reconnect st1) as [[?| | |] st1']; cbn; try done.
    destruct (stmt_execute sql st1') as [[?| | |] st2]; cbn; try done.
    destruct (stmt_getResultSet st2) as [[?| | |] st3]; cbn; done.
Qed.

Lemma execute_query_column_try_open T sql vec (st : state) :
  execute_query_column_try T sql vec st
  = (open_query sql ≫= λ _,
       n ← result_rowsCount;
       if bool_decide (n = 0) then mret false
       else
         vec_clear vec;;
         with_local (default_init T) (λ r_val,
           fuel ← gets loop_bound;
           while_result_next fuel (λ ret_flag,
             ok ← raw_query_value T 1 r_val;
             if ok : bool then vec_push_back vec r_val;; mret true
             else mret ret_flag) false)) st.
Proof. unfold execute_query_column_try. apply open_query_then. Qed.

Lemma execute_query_value_try_open T sql val (st : state) :
  execute_query_value_try T sql val st
  = (open_query sql ≫= λ _,
       n ← result_rowsCount;
       if bool_decide (n = 0) then mret false
       else
         n ← result_rowsCount;
         if bool_decide (n ≠ 1) then
           n ← result_rowsCount;
           log_error [LText "Error rows count:"; LNum n];;
           mret false
         else
           more ← result_next;
           if more : bool then raw_query_value T 1 val
           else mret false) st.
Proof. unfold execute_query_value_try. apply open_query_then. Qed.

Lemma execute_query_values_try_open sql val rest (st : state) :
  execute_query_values_try sql val rest st
  = (open_query sql ≫= λ _,
       n ← result_rowsCount;
       if bool_decide (n = 0) then mret false
       else
         n ← result_rowsCount;
         if bool_decide (n ≠ 1) then
           n ← result_rowsCount;
           log_error [LText "Error rows count:"; LNum n];;
           mret false
         else
           more ← result_next;
           if more : bool then raw_query_value_variadic 1 val rest
           else mret false) st.
Proof. unfold execute_query_values_try. apply open_query_then. Qed.

Ltac not_in_calls :=
  rewrite ?not_elem_of_cons; repeat split; try done; apply not_elem_of_nil.

Ltac open_query_cases :=
  unfold open_query, conn_isValid, conn_reconnect, stmt_execute, stmt_getResultSet,
    result_reset, driver_call;
  unfold_monad; cbn;
  match goal with
  | |- context [isValid ?s] => destruct (isValid s) as [[[|]|?] ?] eqn:?
  end; cbn;
  try match goal with
  | |- context [reconnect ?s] => destruct (reconnect s) as [[?|?] ?] eqn:?
  end; cbn;
  try match goal with
  | |- context [execute ?q ?s] => destruct (execute q s) as [[?|?] ?] eqn:?
  end; cbn;
  try match goal with
  | |- context [getResultSet ?s] => destruct (getResultSet s) as [[[?|]|?] ?] eqn:?
  end; cbn.

(** [open_query] returns or lets a driver exception escape; it leaves the
    memory and the log alone, and when it returns [result_] is null or a new
    result set with the cursor before the first row. *)
Lemma open_query_frame sql (st st1 : state) o :
  open_query sql st = (o, st1) →
  mem st1 = mem st ∧ log st1 = log st ∧
  (o = Ret () ∨ ∃ e, o = Throw e) ∧
  (o = Ret () →
     result_ st1 = None ∨ ∃ t, result_ st1 = Some (mkResultSet (allocated st) t 0)).
Proof.
  revert o st1. open_query_cases; intros o st1 [= <- <-]; cbn;
    repeat split; eauto; try done.
Qed.

(** [open_query] keeps the ownership invariant, and the result set it
    installs is a new one. *)
Lemma open_query_owner sql (st st1 : state) o :
  owns_its_result st →
  open_query sql st = (o, st1) →
  owns_its_result st1 ∧
  (∀ rs, o = Ret () → result_ st1 = Some rs → rs_handle rs = allocated st) ∧
  (∀ old, result_ st = Some old → rs_handle old ≠ allocated st).
Proof.
  unfold owns_its_result. intros Hown.
  assert (∀ old, result_ st = Some old → rs_handle old ≠ allocated st) as Hold.
  { intros old Hold. rewrite Hold in Hown. lia. }
  assert (match result_ st with
          | Some old => filter (λ h, h ≠ rs_handle old) (live st)
          | None => live st
          end = []) as Hkept.
  { destruct (result_ st) as [old|]; [|done].
    destruct Hown as [-> _]. cbn. by rewrite decide_False by (intros H; by apply H). }
  assert (match result_ st with
          | Some old => filter (λ h, h ≠ rs_handle old) (allocated st :: live st)
          | None => allocated st :: live st
          end = [allocated st]) as Hnew.
  { destruct (result_ st) as [old|] eqn:Hres; [|by rewrite Hown].
    destruct Hown as [-> Hlt]. cbn.
    rewrite decide_True by lia. cbn.
    by rewrite decide_False by (intros H; by apply H). }
  revert o st1. open_query_cases; intros o st1 [= <- <-]; cbn;
    (split; [|split; [|exact Hold]]);
    first [ exact Hown
          | by intros rs _ [= <-]
          | by intros rs [=]
          | by intros rs _ [=]
          | exact Hkept
          | split; [exact Hnew | lia] ].
Qed.

(** The calls of [open_query]: the liveness check comes first; one
    reconnect follows it when the session is not valid, none when it is; the
    statement is dispatched after that, unless the reconnect raised. *)
Lemma open_query_calls sql (st st1 : state) o :
  open_query sql st = (o, st1) →
  ∃ cs, calls st1 = calls st ++ Call_isValid :: cs ∧
    Forall (λ c, reads c = None ∧ c ≠ Call_isValid) cs ∧
    (o = Ret () → Call_getResultSet ∈ cs) ∧
    (∀ s1, isValid (session st) = (Ok true, s1) →
       (Call_reconnect ∉ cs) ∧ ∃ cs', cs = Call_execute sql :: cs') ∧
    (∀ s1, isValid (session st) = (Ok false, s1) →
       ∃ cs', cs = Call_reconnect :: cs' ∧ (Call_reconnect ∉ cs') ∧
         (∀ e s2, reconnect s1 = (Raise e, s2) → cs' = [] ∧ o = Throw e) ∧
         (∀ b s2, reconnect s1 = (Ok b, s2) →
            ∃ cs'', cs' = Call_execute sql :: cs'')).
Proof.
  revert o st1. open_query_cases; intros o st1 [= <- <-]; cbn;
    rewrite <- ?app_assoc; cbn;
    (eexists; split; [reflexivity|]).
  all: split;
    [repeat (apply Forall_cons; split; [split; [reflexivity | discriminate]|]);
     apply Forall_nil_2|].
  all: split;
    [intros Ho; first [discriminate Ho | rewrite !elem_of_cons; eauto 6]|].
  all: split; intros s1' E; try congruence.
  all: try (split; [not_in_calls | by eauto]).
  all: eexists; (split; [reflexivity|]); (split; [not_in_calls|]).
  all: split; intros; try congruence; try (split; [done | congruence]); eauto.
Qed.

(** ** Several slots *)

(** With readable columns the recursion fills the slots one after the
    other from consecutive columns. *)
Lemma raw_query_value_variadic_run rest :
  ∀ idx val (st : state) rs,
    result_ st = Some rs →
    0 ≤ idx → idx + Z.of_nat (length rest) < 2 ^ 32 →
    readable rs idx (val :: rest) →
    raw_query_value_variadic idx val rest st
    = (Ret true, fill_slots rs idx (val :: rest) st).
Proof.
  induction rest as [|next rest IH]; intros idx [T val] st rs Hrs Hlo Hhi Hread.
  - destruct Hread as [(a & v & Hb) _]. cbn in *.
    rewrite (raw_query_value_run T idx val st rs Hrs) by (unfold Int.is_uint32; lia).
    by rewrite Hb.
  - destruct Hread as [(a & v & Hb) Hread].
    cbn [raw_query_value_variadic fill_slots fst snd length] in *.
    erewrite bind_ret; last first.
    { rewrite (raw_query_value_run T idx val st rs Hrs) by (unfold Int.is_uint32; lia).
      rewrite Hb. reflexivity. }
    rewrite to_uint32_id by (unfold Int.is_uint32; lia).
    rewrite Hb. apply IH; [done | lia | lia | done].
Qed.

(** The recursion does not look at what a slot returns: a slot of an
    unsupported type is logged and the remaining slots are extracted as if
    nothing had happened. *)
Lemma raw_query_value_variadic_unsupported_slot idx T val next rest (st : state) :
  supported T = false →
  raw_query_value_variadic idx (T, val) (next :: rest) st
  = raw_query_value_variadic (Int.to_uint32 (idx + 1)) next rest
      (set_log (log st ++ [unsupported_line T]) st).
Proof. intros HT. destruct T; try discriminate. reflexivity. Qed.

(** ** Claims about the binder *)

(** What the conversions to [int] and [unsigned int] do to a 64-bit value. *)
Lemma to_int32_spec z :
  -2 ^ 31 ≤ Int.to_int32 z < 2 ^ 31 ∧
  (Int.to_int32 z - z) mod 2 ^ 32 = 0 ∧
  (Int.to_int32 z = z ↔ -2 ^ 31 ≤ z < 2 ^ 31).
Proof.
  unfold Int.to_int32, Int.wrap_signed.
  change (2 ^ (32 - 1)) with 2147483648. change (2 ^ 31) with 2147483648.
  change (2 ^ 32) with 4294967296.
  pose proof (Z.mod_pos_bound (z + 2147483648) 4294967296 ltac:(lia)) as Hbound.
  pose proof (Z.div_mod (z + 2147483648) 4294967296 ltac:(lia)) as Hdiv.
  split; [lia|]. split.
  - replace ((z + 2147483648) mod 4294967296 - 2147483648 - z)
      with (- ((z + 2147483648) / 4294967296) * 4294967296) by lia.
    apply Z_mod_mult.
  - split; [lia|]. intros Hz. rewrite Z.mod_small by lia. lia.
Qed.

Lemma to_uint32_spec z :
  0 ≤ Int.to_uint32 z < 2 ^ 32 ∧
  (Int.to_uint32 z - z) mod 2 ^ 32 = 0 ∧
  (Int.to_uint32 z = z ↔ 0 ≤ z < 2 ^ 32).
Proof.
  unfold Int.to_uint32, Int.wrap_unsigned. change (2 ^ 32) with 4294967296.
  pose proof (Z.mod_pos_bound z 4294967296 ltac:(lia)) as Hbound.
  pose proof (Z.div_mod z 4294967296 ltac:(lia)) as Hdiv.
  split; [lia|]. split.
  - replace (z mod 4294967296 - z) with (- (z / 4294967296) * 4294967296) by lia.
    apply Z_mod_mult.
  - split; [lia|]. intros Hz. by rewrite Z.mod_small by lia.
Qed.

Lemma to_int64_range z : -2 ^ 63 ≤ Int.to_int64 z < 2 ^ 63.
Proof.
  unfold Int.to_int64, Int.wrap_signed.
  change (2 ^ (64 - 1)) with 9223372036854775808.
  change (2 ^ 63) with 9223372036854775808.
  change (2 ^ 64) with 18446744073709551616.
  pose proof (Z.mod_pos_bound (z + 9223372036854775808) 18446744073709551616
                ltac:(lia)).
  lia.
Qed.

Lemma to_uint64_range z : 0 ≤ Int.to_uint64 z < 2 ^ 64.
Proof. unfold Int.to_uint64, Int.wrap_unsigned. apply Z.mod_pos_bound. lia. Qed.

(** The integer accessors return a value of their return type. *)
Lemma rs_getInt64_range rs idx z : rs_getInt64 rs idx = Ok z → -2 ^ 63 ≤ z < 2 ^ 63.
Proof.
  unfold rs_getInt64. destruct (rs_field cell_getInt64 rs idx); [|done].
  intros [= <-]. apply to_int64_range.
Qed.

Lemma rs_getUInt64_range rs idx z : rs_getUInt64 rs idx = Ok z → 0 ≤ z < 2 ^ 64.
Proof.
  unfold rs_getUInt64. destruct (rs_field cell_getUInt64 rs idx); [|done].
  intros [= <-]. apply to_uint64_range.
Qed.

(** C6: for every slot type outside the supported set, single-slot
    extraction returns false and logs the name of the type; no exception
    escapes, no accessor is called and no variable is written (the final
    state differs from the initial one in the log only). *)
Theorem raw_query_value_unsupported T idx val (st : state) :
  supported T = false →
  raw_query_value T idx val st
  = (Ret false,
     set_log (log st ++ [[LText "Unsupported type: "; LText (typeid_name T)]]) st).
Proof. destruct T; try discriminate. reflexivity. Qed.

(** C7: for every supported slot type, single-slot extraction at a column
    index calls the accessor of the slot's family once, returns true and
    stores the accessor's result, cast to the slot type, into the slot:
    the double accessor for float and double, the signed 64-bit accessor for
    int and int64_t, the unsigned 64-bit accessor for unsigned int and
    uint64_t, the string accessor for std::string.  What each cast does is
    part of the statement: the [long double] of the double accessor is
    rounded to the slot type; the 64-bit integer is reduced modulo 2^32 into
    the range of [int] or [unsigned int], and stored as it is in an
    [int64_t] or [uint64_t] slot; the string is stored as it is. *)
Theorem raw_query_value_supported idx val (st : state) rs :
  result_ st = Some rs →
  Int.is_uint32 idx →
  (∀ d, rs_getDouble rs idx = Ok d →
     raw_query_value TFloat idx val st
     = (Ret true, filled GetDouble rs idx val (VFloat (long_double_to_float d)) st)) ∧
  (∀ d, rs_getDouble rs idx = Ok d →
     raw_query_value TDouble idx val st
     = (Ret true, filled GetDouble rs idx val (VDouble (long_double_to_double d)) st)) ∧
  (∀ z, rs_getInt64 rs idx = Ok z →
     raw_query_value TInt idx val st
     = (Ret true, filled GetInt64 rs idx val (VInt (Int.to_int32 z)) st) ∧
     -2 ^ 31 ≤ Int.to_int32 z < 2 ^ 31 ∧ (Int.to_int32 z - z) mod 2 ^ 32 = 0) ∧
  (∀ z, rs_getInt64 rs idx = Ok z →
     raw_query_value TInt64 idx val st
     = (Ret true, filled GetInt64 rs idx val (VInt64 z) st) ∧
     -2 ^ 63 ≤ z < 2 ^ 63) ∧
  (∀ z, rs_getUInt64 rs idx = Ok z →
     raw_query_value TUInt idx val st
     = (Ret true, filled GetUInt64 rs idx val (VUInt (Int.to_uint32 z)) st) ∧
     0 ≤ Int.to_uint32 z < 2 ^ 32 ∧ (Int.to_uint32 z - z) mod 2 ^ 32 = 0) ∧
  (∀ z, rs_getUInt64 rs idx = Ok z →
     raw_query_value TUInt64 idx val st
     = (Ret true, filled GetUInt64 rs idx val (VUInt64 z) st) ∧
     0 ≤ z < 2 ^ 64) ∧
  (∀ s, rs_getString rs idx = Ok s →
     raw_query_value TString idx val st
     = (Ret true, filled GetString rs idx val (VString s) st)).
Proof.
  intros Hrs Hidx.
  assert (∀ T a v, binding T rs idx = Some (a, Ok v) →
            raw_query_value T idx val st = (Ret true, filled a rs idx val v st))
    as Hrun.
  { intros T a v Hb. by rewrite (raw_query_value_run T idx val st rs Hrs Hidx), Hb. }
  split; [|split; [|split; [|split; [|split; [|split]]]]]; intros x Hx.
  - apply Hrun. cbn. by rewrite Hx.
  - apply Hrun. cbn. by rewrite Hx.
  - split; [apply Hrun; cbn; by rewrite Hx|].
    destruct (to_int32_spec x) as (? & ? & _). done.
  - split; [apply Hrun; cbn; by rewrite Hx|]. by eapply rs_getInt64_range.
  - split; [apply Hrun; cbn; by rewrite Hx|].
    destruct (to_uint32_spec x) as (? & ? & _). done.
  - split; [apply Hrun; cbn; by rewrite Hx|]. by eapply rs_getUInt64_range.
  - apply Hrun. cbn. by rewrite Hx.
Qed.

Lemma all_strings_readable rs (slots : list slot) :
  ∀ i, Forall (λ s, s.1 = TString) slots →
    (∀ j, (j < length slots)%nat → ∃ s, rs_getString rs (i + Z.of_nat j) = Ok s) →
    readable rs i slots.
Proof.
  induction slots as [|[T val] slots IH]; intros i Hall Hget; [done|].
  apply Forall_cons in Hall as [HT Hall]. cbn in HT. subst T. split.
  - destruct (Hget 0%nat) as [s Hs]; [cbn; lia|].
    exists GetString, (VString s). cbn. rewrite Z.add_0_r in Hs. by rewrite Hs.
  - apply IH; [done|]. intros j Hj. destruct (Hget (S j)) as [s Hs]; [cbn; lia|].
    exists s. rewrite <- Hs. f_equal. lia.
Qed.

(** C10: the std::string specialization never returns false and never
    takes the unsupported-type branch (it logs nothing), whatever the column
    index; it returns true whenever the string accessor returns.  So a
    multi-slot extraction whose slots are all std::string never returns
    false either, and returns true once the cursor is on a row whose columns
    the string accessor can read. *)
Theorem raw_query_value_string_never_false :
  (∀ idx val (st st' : state) b,
     raw_query_value TString idx val st = (Ret b, st') → b = true) ∧
  (∀ idx val (st : state), log (raw_query_value TString idx val st).2 = log st) ∧
  (∀ idx val (st : state) rs s,
     result_ st = Some rs → Int.is_uint32 idx → rs_getString rs idx = Ok s →
     (raw_query_value TString idx val st).1 = Ret true) ∧
  (∀ rest idx val (st st' : state) b,
     Forall (λ s : slot, s.1 = TString) (val :: rest) →
     raw_query_value_variadic idx val rest st = (Ret b, st') → b = true) ∧
  (∀ rest idx val (st : state) rs,
     Forall (λ s : slot, s.1 = TString) (val :: rest) →
     result_ st = Some rs →
     0 ≤ idx → idx + Z.of_nat (length rest) < 2 ^ 32 →
     (∀ j, (j ≤ length rest)%nat → ∃ s, rs_getString rs (idx + Z.of_nat j) = Ok s) →
     (raw_query_value_variadic idx val rest st).1 = Ret true).
Proof.
  assert (∀ idx val (st st' : state) b,
     raw_query_value TString idx val st = (Ret b, st') → b = true) as Hone.
  { intros idx val st st' b. cbn. unfold raw_query_value_string.
    unfold_prims. unfold_monad. cbn.
    destruct (result_ st) as [rs|]; cbn; [|done].
    destruct (rs_getString rs _); cbn; [|done]. by intros [= <- _]. }
  split; [exact Hone|]. split; [|split; [|split]].
  - intros idx val st. cbn. unfold raw_query_value_string.
    unfold_prims. unfold_monad. cbn.
    destruct (result_ st) as [rs|]; cbn; [|done].
    by destruct (rs_getString rs _).
  - intros idx val st rs s Hrs Hidx Hs.
    rewrite (raw_query_value_run _ idx val st rs Hrs Hidx). cbn. by rewrite Hs.
  - induction rest as [|next rest IH]; intros idx [T val] st st' b Hall.
    + apply Forall_cons in Hall as [HT _]. cbn in HT. subst T. apply Hone.
    + apply Forall_cons in Hall as [HT Hall]. cbn in HT. subst T.
      cbn [raw_query_value_variadic fst snd]. unfold_monad.
      destruct (raw_query_value TString idx val st) as [[?| | |] st1]; try done.
      by apply IH.
  - intros rest idx val st rs Hall Hrs Hlo Hhi Hget.
    rewrite (raw_query_value_variadic_run rest idx val st rs); try done.
    apply all_strings_readable; [done|]. intros j Hj. apply Hget. cbn in Hj. lia.
Qed.

(** ** The row-count gate of the single-row templates *)

Lemma result_rowsCount_run (st : state) rs :
  result_ st = Some rs →
  result_rowsCount st
  = (Ret (Z.of_nat (length (rs_rows rs))), observe (Call_rowsCount (rs_handle rs)) st).
Proof. intros Hrs. unfold_prims. unfold_monad. cbn. by rewrite Hrs. Qed.

Lemma result_next_run (st : state) rs :
  result_ st = Some rs →
  result_next st
  = (Ret (rs_next rs).1,
     set_result_ (Some (rs_next rs).2) (observe (Call_next (rs_handle rs)) st)).
Proof. intros Hrs. unfold_prims. unfold_monad. cbn. by rewrite Hrs. Qed.

Lemma one_row_gate (k : M bool) (st1 : state) rs :
  result_ st1 = Some rs → rs_pos rs = 0%nat →
  (n ← result_rowsCount;
   if bool_decide (n = 0) then mret false
   else
     n ← result_rowsCount;
     if bool_decide (n ≠ 1) then
       n ← result_rowsCount;
       log_error [LText "Error rows count:"; LNum n];;
       mret false
     else
       more ← result_next;
       if more : bool then k else mret false) st1
  = match length (rs_rows rs) with
    | O => (Ret false, observe (Call_rowsCount (rs_handle rs)) st1)
    | S O => k (checked_one_row rs st1)
    | S (S n) =>
        (Ret false,
         set_log (log st1 ++ [rows_count_line (S (S n))])
           (observe (Call_rowsCount (rs_handle rs))
              (observe (Call_rowsCount (rs_handle rs))
                 (observe (Call_rowsCount (rs_handle rs)) st1))))
    end.
Proof.
  intros Hrs Hpos.
  erewrite bind_ret by by apply result_rowsCount_run.
  destruct (length (rs_rows rs)) as [|[|n]] eqn:Hlen; cbn [bool_decide].
  - by rewrite bool_decide_eq_true_2 by done.
  - rewrite bool_decide_eq_false_2 by lia.
    erewrite bind_ret by (by apply result_rowsCount_run). rewrite Hlen.
    rewrite bool_decide_eq_false_2 by (intros H; by apply H).
    erewrite bind_ret by (by apply result_next_run).
    unfold rs_next. rewrite Hpos, Hlen. cbn.
    unfold checked_one_row, on_row. by destruct rs.
  - rewrite bool_decide_eq_false_2 by lia.
    erewrite bind_ret by (by apply result_rowsCount_run). rewrite Hlen.
    rewrite bool_decide_eq_true_2 by lia.
    erewrite bind_ret by (by apply result_rowsCount_run). rewrite Hlen.
    reflexivity.
Qed.

Lemma open_query_result sql (st st1 : state) rs :
  open_query sql st = (Ret (), st1) → result_ st1 = Some rs →
  rs_pos rs = 0%nat ∧ rs_handle rs = allocated st.
Proof.
  intros Hopen Hrs. apply open_query_frame in Hopen as (_ & _ & _ & Hres).
  destruct (Hres eq_refl) as [Hnone|[t Ht]]; [congruence|].
  rewrite Hrs in Ht. by injection Ht as ->.
Qed.

(** ** Claims about the single-row templates *)

(** C2: [execute_query_value] returns true only when the result set of the
    query has exactly one row, and then the slot holds the value of column 1
    of that row; on a result set without rows it returns false and leaves
    the slot and the log alone; on a result set with two or more rows it
    returns false, logs the row count and writes no row's data. *)
Theorem execute_query_value_exactly_one_row T sql val (st : state) :
  (∀ st', execute_query_value T sql val st = (Ret true, st') →
     ∃ st1 rs a v,
       open_query sql st = (Ret (), st1) ∧ result_ st1 = Some rs ∧
       length (rs_rows rs) = 1%nat ∧
       binding T (on_row (rs_handle rs) (rs_table rs) 1) 1 = Some (a, Ok v) ∧
       mem st' = <[val := Scalar v]> (mem st)) ∧
  (∀ st1 rs,
     open_query sql st = (Ret (), st1) → result_ st1 = Some rs →
     length (rs_rows rs) = 0%nat →
     ∃ st', execute_query_value T sql val st = (Ret false, st') ∧
            mem st' = mem st ∧ log st' = log st) ∧
  (∀ st1 rs,
     open_query sql st = (Ret (), st1) → result_ st1 = Some rs →
     (2 ≤ length (rs_rows rs))%nat →
     ∃ st', execute_query_value T sql val st = (Ret false, st') ∧
            mem st' = mem st ∧
            log st' = log st ++ [rows_count_line (length (rs_rows rs))]).
Proof.
  unfold execute_query_value, try_catch.
  rewrite execute_query_value_try_open.
  destruct (open_query sql st) as [o st1] eqn:Hopen.
  destruct (open_query_frame _ _ _ _ Hopen) as (Hmem & Hlog & Ho & Hres).
  split; [|split].
  - intros st'. destruct Ho as [->|[e ->]].
    2:{ erewrite bind_throw by done. rewrite catch_SQLException_run. done. }
    erewrite bind_ret by done.
    destruct (result_ st1) as [rs|] eqn:Hrs.
    2:{ unfold_prims. unfold_monad. cbn. rewrite Hrs. done. }
    destruct (open_query_result _ _ _ _ Hopen Hrs) as [Hpos Hh].
    rewrite (one_row_gate _ st1 rs Hrs Hpos).
    destruct (length (rs_rows rs)) as [|[|n]] eqn:Hlen; try done.
    rewrite (raw_query_value_run T 1 val _ (on_row (rs_handle rs) (rs_table rs) 1))
      by done.
    destruct (binding T _ 1) as [[a [v|e]]|] eqn:Hb;
      try rewrite catch_SQLException_run; try done.
    intros [= <-]. exists st1, rs, a, v. cbn. by rewrite Hmem.
  - intros st1' rs [= -> <-] Hrs Hlen.
    erewrite bind_ret by done.
    destruct (open_query_result _ _ _ _ Hopen Hrs) as [Hpos Hh].
    rewrite (one_row_gate _ st1 rs Hrs Hpos), Hlen. eexists. split; [done|].
    by cbn.
  - intros st1' rs [= -> <-] Hrs Hlen.
    erewrite bind_ret by done.
    destruct (open_query_result _ _ _ _ Hopen Hrs) as [Hpos Hh].
    rewrite (one_row_gate _ st1 rs Hrs Hpos).
    destruct (length (rs_rows rs)) as [|[|n]] eqn:Hlen'; try lia.
    eexists. split; [done|]. cbn. by rewrite Hlog.
Qed.

(** ** Facts about [fill_slots] *)

Lemma fill_slots_result_ rs (slots : list slot) :
  ∀ i (st : state), result_ (fill_slots rs i slots st) = result_ st.
Proof.
  induction slots as [|[T val] slots IH]; intros i st; cbn; [done|].
  rewrite IH. by destruct (binding T rs i) as [[a [v|e]]|].
Qed.

Lemma fill_slots_length rs (slots : list slot) :
  ∀ i (st : state), length (mem (fill_slots rs i slots st)) = length (mem st).
Proof.
  induction slots as [|[T val] slots IH]; intros i st; cbn; [done|].
  rewrite IH. destruct (binding T rs i) as [[a [v|e]]|]; cbn; try done.
  apply length_insert.
Qed.

(** A variable that is no slot of the call keeps its content. *)
Lemma fill_slots_other rs (slots : list slot) (l : loc) :
  ∀ i (st : state), l ∉ slots.*2 →
    mem (fill_slots rs i slots st) !! l = mem st !! l.
Proof.
  induction slots as [|[T val] slots IH]; intros i st Hl; cbn; [done|].
  cbn in Hl. apply not_elem_of_cons in Hl as [Hne Hl].
  rewrite IH by done. destruct (binding T rs i) as [[a [v|e]]|]; cbn; try done.
  by apply list_lookup_insert_ne.
Qed.

(** Slot [j] (counted from 0) holds the value of column [i + j]. *)
Lemma fill_slots_lookup rs (slots : list slot) :
  ∀ i (st : state) j T val a v,
    slots !! j = Some (T, val) →
    NoDup slots.*2 →
    (val < length (mem st))%nat →
    binding T rs (i + Z.of_nat j) = Some (a, Ok v) →
    mem (fill_slots rs i slots st) !! val = Some (Scalar v).
Proof.
  induction slots as [|[T0 val0] slots IH]; intros i st j T val a v Hj Hnd Hval Hb;
    [done|].
  cbn in Hnd. apply NoDup_cons in Hnd as [Hnotin Hnd].
  destruct j as [|j]; cbn in Hj.
  - injection Hj as -> ->. cbn. rewrite Z.add_0_r in Hb. rewrite Hb.
    rewrite fill_slots_other by done. cbn. by apply list_lookup_insert_eq.
  - cbn. eapply (IH (i + 1)); try done.
    + destruct (binding T0 rs i) as [[a0 [v0|e0]]|]; cbn; try done.
      by rewrite length_insert.
    + rewrite <- Hb. f_equal. lia.
Qed.

(** The accessor calls of [fill_slots], in the order they are made. *)
Lemma fill_slots_calls rs (slots : list slot) :
  ∀ i (st : state), readable rs i slots →
    calls (fill_slots rs i slots st) = calls st ++ column_calls rs i slots.
Proof.
  induction slots as [|[T val] slots IH]; intros i st Hread; cbn.
  - by rewrite app_nil_r.
  - destruct Hread as [(a & v & Hb) Hread]. rewrite Hb. rewrite IH by done.
    cbn. by rewrite <- app_assoc.
Qed.

(** C9: [execute_query_values] has the exactly-one-row requirement of
    [execute_query_value] (no row: false; two rows or more: false and the
    row count logged; in both cases no slot is written), and on a one-row
    result it hands the slots to the recursive extractor at column 1, which
    fills slot j from column j for j = 1, ..., n, one after the other. *)
Theorem execute_query_values_in_order sql val rest (st st1 : state) rs :
  open_query sql st = (Ret (), st1) →
  result_ st1 = Some rs →
  (length (rs_rows rs) = 0%nat →
     ∃ st', execute_query_values sql val rest st = (Ret false, st') ∧
            mem st' = mem st ∧ log st' = log st) ∧
  ((2 ≤ length (rs_rows rs))%nat →
     ∃ st', execute_query_values sql val rest st = (Ret false, st') ∧
            mem st' = mem st ∧
            log st' = log st ++ [rows_count_line (length (rs_rows rs))]) ∧
  (length (rs_rows rs) = 1%nat →
     let row := on_row (rs_handle rs) (rs_table rs) 1 in
     execute_query_values sql val rest st
     = try_catch (raw_query_value_variadic 1 val rest) (catch_SQLException sql)
         (checked_one_row rs st1) ∧
     (Z.of_nat (length rest) < 2 ^ 32 - 1 →
      readable row 1 (val :: rest) →
      ∃ st', execute_query_values sql val rest st = (Ret true, st') ∧
        st' = fill_slots row 1 (val :: rest) (checked_one_row rs st1) ∧
        calls st' = calls (checked_one_row rs st1) ++ column_calls row 1 (val :: rest) ∧
        (NoDup (val :: rest).*2 →
         ∀ j T l a v,
           (val :: rest) !! j = Some (T, l) → (l < length (mem st))%nat →
           binding T row (1 + Z.of_nat j) = Some (a, Ok v) →
           mem st' !! l = Some (Scalar v)))).
Proof.
  intros Hopen Hrs.
  destruct (open_query_frame _ _ _ _ Hopen) as (Hmem & Hlog & _ & _).
  destruct (open_query_result _ _ _ _ Hopen Hrs) as [Hpos Hh].
  assert (execute_query_values sql val rest st
          = try_catch
              (n ← result_rowsCount;
               if bool_decide (n = 0) then mret false
               else
                 n ← result_rowsCount;
                 if bool_decide (n ≠ 1) then
                   n ← result_rowsCount;
                   log_error [LText "Error rows count:"; LNum n];;
                   mret false
                 else
                   more ← result_next;
                   if more : bool then raw_query_value_variadic 1 val rest
                   else mret false)
              (catch_SQLException sql) st1) as Hrun.
  { unfold execute_query_values, try_catch.
    rewrite execute_query_values_try_open. by erewrite bind_ret by done. }
  rewrite Hrun. clear Hrun.
  split; [|split].
  - intros Hlen. unfold try_catch.
    rewrite (one_row_gate _ st1 rs Hrs Hpos), Hlen. eexists. split; [done|]. by cbn.
  - intros Hlen. unfold try_catch. rewrite (one_row_gate _ st1 rs Hrs Hpos).
    destruct (length (rs_rows rs)) as [|[|n]]; try lia.
    eexists. split; [done|]. cbn. by rewrite Hlog.
  - intros Hlen row.
    assert (∀ h : SQLException → M bool,
              try_catch
                (n ← result_rowsCount;
                 if bool_decide (n = 0) then mret false
                 else
                   n ← result_rowsCount;
                   if bool_decide (n ≠ 1) then
                     n ← result_rowsCount;
                     log_error [LText "Error rows count:"; LNum n];;
                     mret false
                   else
                     more ← result_next;
                     if more : bool then raw_query_value_variadic 1 val rest
                     else mret false) h st1
              = try_catch (raw_query_value_variadic 1 val rest) h
                  (checked_one_row rs st1)) as Hgate.
    { intros h. unfold try_catch.
      by rewrite (one_row_gate _ st1 rs Hrs Hpos), Hlen. }
    rewrite Hgate. split; [done|]. intros Hn Hread.
    unfold try_catch.
    rewrite (raw_query_value_variadic_run rest 1 val _ row); try done; try lia.
    eexists. split; [done|]. split; [done|]. split.
    + by apply fill_slots_calls.
    + intros Hnd j T l a v Hj Hl Hb.
      eapply fill_slots_lookup; try done. cbn. by rewrite Hmem.
Qed.

(** ** The three templates as one scheme *)

Lemma try_catch_ext {A} (body body' : M A) handler (st : state) :
  body st = body' st → try_catch body handler st = try_catch body' handler st.
Proof. intros H. unfold try_catch. by rewrite H. Qed.

Lemma template_open (tail : M bool) sql (st st1 : state) o :
  open_query sql st = (o, st1) →
  try_catch (open_query sql ≫= λ _, tail) (catch_SQLException sql) st
  = match o with
    | Ret _ => try_catch tail (catch_SQLException sql) st1
    | Throw e => (Ret false, set_log (log st1 ++ exception_lines sql e) st1)
    | Crash => (Crash, st1)
    | OutOfFuel => (OutOfFuel, st1)
    end.
Proof.
  intros Hopen. unfold try_catch. unfold_monad. rewrite Hopen.
  destruct o; try done. apply catch_SQLException_run.
Qed.

Ltac solve_quiet :=
  repeat first
    [ apply quiet_ret | apply quiet_result_rowsCount | apply quiet_result_next
    | apply quiet_log_error | apply quiet_vec_clear | apply quiet_vec_push_back
    | apply quiet_raw_query_value | apply quiet_raw_query_value_variadic
    | apply quiet_gets
    | apply quiet_with_local; intros ?
    | apply quiet_while_result_next; intros ?
    | apply quiet_bind; [|intros ?]
    | match goal with |- quiet (if ?b then _ else _) => destruct b end ].

Lemma owns_its_result_reading (st st' : state) :
  reading st st' → owns_its_result st → owns_its_result st'.
Proof.
  intros (_ & Hr & Hl & Ha & _). unfold owns_its_result.
  destruct (result_ st) as [rs|], (result_ st') as [rs'|]; cbn in Hr;
    try discriminate; [|by rewrite Hl].
  injection Hr as Hr. by rewrite Hl, Ha, Hr.
Qed.

Lemma owns_its_result_live (st : state) :
  owns_its_result st → (length (live st) ≤ 1)%nat.
Proof.
  unfold owns_its_result. destruct (result_ st).
  - intros [-> _]. done.
  - intros ->. cbn. lia.
Qed.

Lemma template_properties (tail : M bool) sql (st : state) :
  quiet tail →
  let r := try_catch (open_query sql ≫= λ _, tail) (catch_SQLException sql) st in
  liveness_checked_first sql st r ∧ (owns_its_result st → at_most_one_result st r).
Proof.
  intros Hq r.
  destruct (open_query sql st) as [o st1] eqn:Hopen.
  pose proof (template_open tail sql st st1 o Hopen) as Hr. fold r in Hr.
  destruct (open_query_frame _ _ _ _ Hopen) as (_ & _ & Ho & _).
  destruct (open_query_calls _ _ _ _ Hopen)
    as (cs & Hcs & Hnone & Hget & Hvalid & Hinvalid).
  assert (∃ cs2, calls r.2 = calls st1 ++ cs2 ∧
            Forall (λ c, is_Some (reads c) ∧ reads c = rs_handle <$> result_ st1) cs2 ∧
            reading st1 r.2 ∧
            (∀ e, o = Throw e → cs2 = [] ∧ r.1 = Ret false))
    as (cs2 & Hcs2 & Hreads & Hreading & Hthrow).
  { destruct Ho as [->|[e ->]].
    - assert (reading st1 r.2) as Hrd.
      { rewrite Hr. apply quiet_try_catch; [done|].
        intros e. apply quiet_catch_SQLException. }
      pose proof Hrd as (_ & _ & _ & _ & cs2 & Hcs2 & Hreads).
      exists cs2. split; [done|]. split; [done|]. split; [done|]. intros e [=].
    - exists []. rewrite Hr. cbn. rewrite app_nil_r.
      split; [done|]. split; [done|]. split; [by apply reading_same|].
      by intros e' [= <-]. }
  assert (∀ c, c ∈ cs2 → c ≠ Call_isValid ∧ c ≠ Call_reconnect) as Htail.
  { intros c Hc. rewrite Forall_forall in Hreads.
    destruct (Hreads c Hc) as [[h Hh] _]. split; intros ->; discriminate. }
  split.
  - exists (cs ++ cs2). split; [by rewrite Hcs2, Hcs, <- app_assoc|].
    split.
    { rewrite not_elem_of_app. split.
      - intros Hin. rewrite Forall_forall in Hnone. by destruct (Hnone _ Hin).
      - intros Hin. by destruct (Htail _ Hin). }
    split.
    { intros s1 Hs1. destruct (Hvalid s1 Hs1) as [Hnr [cs' ->]]. split.
      - rewrite not_elem_of_app. split; [done|].
        intros Hin. by destruct (Htail _ Hin).
      - by eexists. }
    intros s1 Hs1. destruct (Hinvalid s1 Hs1) as (cs' & -> & Hnr & Hraise & Hok).
    exists (cs' ++ cs2). split; [done|]. split.
    { rewrite not_elem_of_app. split; [done|].
      intros Hin. by destruct (Htail _ Hin). }
    split.
    + intros e s2 He. destruct (Hraise e s2 He) as [-> ->].
      destruct (Hthrow e eq_refl) as [-> ?]. done.
    + intros b s2 Hb. destruct (Hok b s2 Hb) as [cs'' ->]. by eexists.
  - intros Hown.
    destruct (open_query_owner _ _ _ _ Hown Hopen) as (Hown1 & Hnew & Hold).
    pose proof (owns_its_result_reading _ _ Hreading Hown1) as Hown2.
    split; [done|]. split; [by apply owns_its_result_live|]. split; [done|].
    exists (Call_isValid :: cs), cs2.
    split; [by rewrite Hcs2, Hcs, <- app_assoc|].
    split.
    { apply Forall_cons. split; [done|].
      eapply Forall_impl; [exact Hnone|]. by intros c [? _]. }
    destruct cs2 as [|c cs2]; [by split|].
    assert (o = Ret ()) as ->.
    { destruct Ho as [->|[e ->]]; [done|]. by destruct (Hthrow e eq_refl). }
    assert (∃ rs, result_ st1 = Some rs) as [rs Hrs].
    { apply Forall_cons in Hreads as [[[h Hh] Heq] _].
      destruct (result_ st1) as [rs|]; [by eexists|]. cbn in Heq. congruence. }
    pose proof (Hnew rs eq_refl Hrs) as Hh.
    split.
    { eapply Forall_impl; [exact Hreads|]. intros c' [_ ->]. by rewrite Hrs, <- Hh. }
    intros _. split; [apply elem_of_cons; right; by apply Hget|].
    destruct Hreading as (_ & Hres & Hlive & _).
    split.
    + by rewrite Hres, Hrs, <- Hh.
    + rewrite Hlive. unfold owns_its_result in Hown1. rewrite Hrs in Hown1.
      destruct Hown1 as [-> _]. by rewrite Hh.
Qed.

Lemma execute_query_column_template T sql vec (st : state) :
  ∃ tail : M bool, quiet tail ∧
    execute_query_column T sql vec st
    = try_catch (open_query sql ≫= λ _, tail) (catch_SQLException sql) st.
Proof.
  eexists. split; [|apply try_catch_ext, execute_query_column_try_open].
  solve_quiet.
Qed.

Lemma execute_query_value_template T sql val (st : state) :
  ∃ tail : M bool, quiet tail ∧
    execute_query_value T sql val st
    = try_catch (open_query sql ≫= λ _, tail) (catch_SQLException sql) st.
Proof.
  eexists. split; [|apply try_catch_ext, execute_query_value_try_open].
  solve_quiet.
Qed.

Lemma execute_query_values_template sql val rest (st : state) :
  ∃ tail : M bool, quiet tail ∧
    execute_query_values sql val rest st
    = try_catch (open_query sql ≫= λ _, tail) (catch_SQLException sql) st.
Proof.
  eexists. split; [|apply try_catch_ext, execute_query_values_try_open].
  solve_quiet.
Qed.

(** ** What a computation leaves in [result_] *)

Lemma keeps_result_ret {A} (a : A) : keeps_result (mret a).
Proof. by intros st. Qed.

Lemma keeps_result_bind {A B} (m : M A) (f : A → M B) :
  keeps_result m → (∀ a, keeps_result (f a)) → keeps_result (m ≫= f).
Proof.
  intros Hm Hf st. specialize (Hm st). unfold_monad.
  destruct (m st) as [[a|e| |] st1]; cbn in *; try done.
  by rewrite Hf.
Qed.

Lemma keeps_result_try_catch {A} (body : M A) handler :
  keeps_result body → (∀ e, keeps_result (handler e)) →
  keeps_result (try_catch body handler).
Proof.
  intros Hb Hh st. specialize (Hb st). unfold try_catch.
  destruct (body st) as [[a|e| |] st1]; cbn in *; try done.
  by rewrite Hh.
Qed.

Lemma keeps_result_catch_SQLException sql e : keeps_result (catch_SQLException sql e).
Proof. intros st. by rewrite catch_SQLException_run. Qed.

Lemma keeps_result_result_get {A} a (get : ResultSet → Z → result A) idx :
  keeps_result (result_get a get idx).
Proof.
  intros st. unfold result_get, with_result. unfold_monad. cbn.
  destruct (result_ st) as [rs|] eqn:Hrs; cbn; [|done].
  by destruct (get rs idx).
Qed.

Lemma keeps_result_assign val v : keeps_result (assign val v).
Proof. by destruct v. Qed.

Lemma keeps_result_log_error line : keeps_result (log_error line).
Proof. by intros st. Qed.

Lemma keeps_result_vec_push_back vec r_val : keeps_result (vec_push_back vec r_val).
Proof.
  intros st. unfold vec_push_back. unfold_monad. cbn.
  destruct (mem st !! vec) as [[]|]; try done.
  by destruct (mem st !! r_val) as [[]|].
Qed.

Lemma keeps_result_raw_query_value T idx val : keeps_result (raw_query_value T idx val).
Proof.
  destruct T; cbn [raw_query_value];
    unfold raw_query_value_primary, raw_query_value_string, result_getDouble,
      result_getInt64, result_getUInt64, result_getString;
    cbn [typeid_eq orb];
    repeat first
      [ apply keeps_result_result_get | apply keeps_result_assign
      | apply keeps_result_log_error | apply keeps_result_ret
      | apply keeps_result_bind; [|intros ?] ].
Qed.

Lemma keeps_result_raw_query_value_variadic rest :
  ∀ idx val, keeps_result (raw_query_value_variadic idx val rest).
Proof.
  induction rest as [|next rest IH]; intros idx val; cbn.
  - apply keeps_result_raw_query_value.
  - apply keeps_result_bind; [apply keeps_result_raw_query_value | intros _; apply IH].
Qed.

Lemma keeps_result_result_rowsCount : keeps_result result_rowsCount.
Proof.
  intros st. unfold result_rowsCount, with_result. unfold_monad. cbn.
  destruct (result_ st) as [rs|] eqn:Hrs; cbn; by rewrite ?Hrs.
Qed.

Lemma keeps_result_vec_clear vec : keeps_result (vec_clear vec).
Proof.
  intros st. unfold vec_clear. unfold_monad. cbn.
  by destruct (mem st !! vec) as [[]|].
Qed.

Lemma keeps_table_keeps_result {A} (m : M A) : keeps_result m → keeps_table m.
Proof. intros Hm st. by rewrite Hm. Qed.

Lemma keeps_table_bind {A B} (m : M A) (f : A → M B) :
  keeps_table m → (∀ a, keeps_table (f a)) → keeps_table (m ≫= f).
Proof.
  intros Hm Hf st. specialize (Hm st). unfold_monad.
  destruct (m st) as [[a|e| |] st1]; cbn in *; try done.
  by rewrite Hf.
Qed.

Lemma keeps_table_try_catch {A} (body : M A) handler :
  keeps_table body → (∀ e, keeps_table (handler e)) →
  keeps_table (try_catch body handler).
Proof.
  intros Hb Hh st. specialize (Hb st). unfold try_catch.
  destruct (body st) as [[a|e| |] st1]; cbn in *; try done.
  by rewrite Hh.
Qed.

Lemma keeps_table_result_next : keeps_table result_next.
Proof.
  intros st. unfold result_next, with_result. unfold_monad. cbn.
  destruct (result_ st) as [rs|] eqn:Hrs; cbn; [|by rewrite Hrs].
  unfold rs_next. by destruct (decide _).
Qed.

Lemma keeps_table_with_local {A} init (block : loc → M A) :
  (∀ r, keeps_table (block r)) → keeps_table (with_local init block).
Proof.
  intros Hb st. unfold with_local.
  specialize (Hb (length (mem st)) (set_mem (mem st ++ [init]) st)).
  by destruct (block _ _) as [o st'].
Qed.

Lemma keeps_table_while_result_next (body : bool → M bool) :
  (∀ flag, keeps_table (body flag)) →
  ∀ fuel flag, keeps_table (while_result_next fuel body flag).
Proof.
  intros Hbody fuel. induction fuel as [|fuel IH]; intros flag; cbn.
  - by intros st.
  - apply keeps_table_bind; [apply keeps_table_result_next | intros [|]].
    + apply keeps_table_bind; [apply Hbody | intros flag'; apply IH].
    + by intros st.
Qed.

Ltac solve_keeps_table :=
  repeat first
    [ apply keeps_table_result_next
    | apply keeps_table_with_local; intros ?
    | apply keeps_table_while_result_next; intros ?
    | apply keeps_table_keeps_result;
      first [ apply keeps_result_ret | apply keeps_result_result_rowsCount
            | apply keeps_result_log_error | apply keeps_result_vec_clear
            | apply keeps_result_vec_push_back | apply keeps_result_raw_query_value
            | apply keeps_result_raw_query_value_variadic ]
    | apply keeps_table_bind; [|intros ?]
    | match goal with |- keeps_table (if ?b then _ else _) => destruct b end
    | by intros ? ].

(** ** The result set a run obtains *)

(** When the session delivers, the first statements of the try block end
    with [getResultSet] and the reset: the result set owned before is
    deleted, and [result_] owns what [getResultSet] returned. *)
Lemma open_query_delivers sql (st : state) p :
  owns_its_result st →
  delivers sql (session st) p →
  ∃ st1 cs1,
    open_query sql st = (Ret (), st1) ∧
    calls st1 = calls st ++ cs1 ++ [Call_getResultSet] ∧
    Forall (λ c, reads c = None) cs1 ∧
    match p with
    | Some t =>
        result_ st1 = Some (mkResultSet (allocated st) t 0) ∧
        live st1 = [allocated st]
    | None => result_ st1 = None ∧ live st1 = []
    end.
Proof.
  unfold owns_its_result.
  intros Hown (valid & s1 & s2 & b & s3 & s4 & Hv & Hr & He & Hg).
  assert (match result_ st with
          | Some old => filter (λ h, h ≠ rs_handle old) (live st)
          | None => live st
          end = []) as Hkept.
  { destruct (result_ st) as [old|]; [|done].
    destruct Hown as [-> _]. cbn. by rewrite decide_False by (intros H; by apply H). }
  assert (match result_ st with
          | Some old => filter (λ h, h ≠ rs_handle old) (allocated st :: live st)
          | None => allocated st :: live st
          end = [allocated st]) as Hnew.
  { destruct (result_ st) as [old|] eqn:Hres; [|by rewrite Hown].
    destruct Hown as [-> Hlt]. cbn.
    rewrite decide_True by lia. cbn.
    by rewrite decide_False by (intros H; by apply H). }
  unfold open_query, conn_isValid, conn_reconnect, stmt_execute, stmt_getResultSet,
    result_reset, driver_call.
  unfold_monad. cbn. rewrite Hv. cbn.
  destruct valid; cbn.
  - subst s2. rewrite He. cbn. rewrite Hg. cbn.
    destruct p as [t|]; cbn;
      (eexists _, [Call_isValid; Call_execute sql]; split; [reflexivity|]; cbn;
       split; [by rewrite <- !app_assoc|];
       split; [by repeat constructor|]; by split).
  - destruct Hr as [b' Hr]. rewrite Hr. cbn. rewrite He. cbn. rewrite Hg. cbn.
    destruct p as [t|]; cbn;
      (eexists _, [Call_isValid; Call_reconnect; Call_execute sql];
       split; [reflexivity|]; cbn;
       split; [by rewrite <- !app_assoc|];
       split; [by repeat constructor|]; by split).
Qed.

Lemma template_supersedes (k : Z → M bool) sql (st : state) :
  (∀ n, quiet (k n)) →
  (∀ n, keeps_table (k n)) →
  owns_its_result st →
  let r := try_catch (open_query sql ≫= λ _, n ← result_rowsCount; k n)
             (catch_SQLException sql) st in
  (∀ t, delivers sql (session st) (Some t) →
     (∃ pos, result_ r.2 = Some (mkResultSet (allocated st) t pos)) ∧
     live r.2 = [allocated st] ∧
     (∀ old, result_ st = Some old → rs_handle old ∉ live r.2) ∧
     ∃ cs1 cs2,
       calls r.2
       = calls st ++ cs1 ++ Call_getResultSet :: Call_rowsCount (allocated st) :: cs2 ∧
       Forall (λ c, reads c = None) cs1 ∧
       Forall (λ c, reads c = Some (allocated st)) cs2) ∧
  (delivers sql (session st) None →
     r.1 = Crash ∧ result_ r.2 = None ∧ live r.2 = []).
Proof.
  intros Hq Hk Hown r. split.
  - intros t Hdel.
    destruct (open_query_delivers _ _ _ Hown Hdel)
      as (st1 & cs1 & Hopen & Hcalls & Hcs1 & Hres & Hlive).
    set (st2 := observe (Call_rowsCount (allocated st)) st1).
    assert (r = try_catch (k (Z.of_nat (length (tbl_rows t))))
                  (catch_SQLException sql) st2) as Hr.
    { unfold r, try_catch. erewrite bind_ret by exact Hopen.
      by erewrite bind_ret by (by apply result_rowsCount_run). }
    assert (reading st2 r.2) as Hreading.
    { rewrite Hr. apply quiet_try_catch; [apply Hq|].
      intros e. apply quiet_catch_SQLException. }
    assert (rs_table <$> result_ r.2 = Some t) as Htable.
    { rewrite Hr. rewrite keeps_table_try_catch; [by cbn; rewrite Hres | apply Hk |].
      intros e. apply keeps_table_keeps_result, keeps_result_catch_SQLException. }
    destruct Hreading as (_ & Hhandle & Hl & _ & cs2 & Hcs2 & Hreads).
    cbn in Hhandle, Hl, Hcs2, Hreads. rewrite Hres in Hhandle, Hreads.
    cbn in Hhandle, Hreads.
    split; [|split; [|split]].
    + destruct (result_ r.2) as [[h' t' pos]|]; [|done].
      injection Hhandle as ->. injection Htable as ->. by exists pos.
    + by rewrite Hl.
    + intros old Hold. rewrite Hl, Hlive. unfold owns_its_result in Hown.
      rewrite Hold in Hown. rewrite list_elem_of_singleton. lia.
    + exists cs1, cs2. split.
      * rewrite Hcs2, Hcalls, <- !app_assoc. done.
      * split; [done|]. eapply Forall_impl; [exact Hreads|]. by intros c [_ ->].
  - intros Hdel.
    destruct (open_query_delivers _ _ _ Hown Hdel)
      as (st1 & cs1 & Hopen & _ & _ & Hres & Hlive).
    assert (r = (Crash, st1)) as ->; [|done].
    unfold r, try_catch. erewrite bind_ret by exact Hopen.
    unfold_prims. unfold_monad. cbn. by rewrite Hres.
Qed.

(** Each template starts with [open_query] and the row-count test. *)
Lemma execute_query_column_rows T sql vec (st : state) :
  ∃ k : Z → M bool,
    (∀ n, quiet (k n)) ∧ (∀ n, keeps_table (k n)) ∧
    execute_query_column T sql vec st
    = try_catch (open_query sql ≫= λ _, n ← result_rowsCount; k n)
        (catch_SQLException sql) st.
Proof.
  eexists. split; [|split; [|apply try_catch_ext, execute_query_column_try_open]].
  - intros n. cbn beta. solve_quiet.
  - intros n. cbn beta. solve_keeps_table.
Qed.

Lemma execute_query_value_rows T sql val (st : state) :
  ∃ k : Z → M bool,
    (∀ n, quiet (k n)) ∧ (∀ n, keeps_table (k n)) ∧
    execute_query_value T sql val st
    = try_catch (open_query sql ≫= λ _, n ← result_rowsCount; k n)
        (catch_SQLException sql) st.
Proof.
  eexists. split; [|split; [|apply try_catch_ext, execute_query_value_try_open]].
  - intros n. cbn beta. solve_quiet.
  - intros n. cbn beta. solve_keeps_table.
Qed.

Lemma execute_query_values_rows sql val rest (st : state) :
  ∃ k : Z → M bool,
    (∀ n, quiet (k n)) ∧ (∀ n, keeps_table (k n)) ∧
    execute_query_values sql val rest st
    = try_catch (open_query sql ≫= λ _, n ← result_rowsCount; k n)
        (catch_SQLException sql) st.
Proof.
  eexists. split; [|split; [|apply try_catch_ext, execute_query_values_try_open]].
  - intros n. cbn beta. solve_quiet.
  - intros n. cbn beta. solve_keeps_table.
Qed.

(** ** Claims about the connection *)

(** C4, as the code has it: every run of [execute_query_column],
    [execute_query_value] and [execute_query_values] checks the session
    first, once, before the statement is dispatched; a valid session gets
    no reconnect; when the session is not valid exactly one reconnect is
    attempted before the dispatch.  When that reconnect raises nothing more
    is called (no second attempt, no dispatch) and the run returns false.
    When it returns, with true or with false, the statement is dispatched
    next: what [reconnect()] returns is not looked at. *)
Theorem liveness_check_precedes_dispatch sql (st : state) :
  (∀ T vec, liveness_checked_first sql st (execute_query_column T sql vec st)) ∧
  (∀ T val, liveness_checked_first sql st (execute_query_value T sql val st)) ∧
  (∀ val rest, liveness_checked_first sql st (execute_query_values sql val rest st)).
Proof.
  split; [|split].
  - intros T vec.
    destruct (execute_query_column_template T sql vec st) as (tail & Hq & ->).
    by apply template_properties.
  - intros T val.
    destruct (execute_query_value_template T sql val st) as (tail & Hq & ->).
    by apply template_properties.
  - intros val rest.
    destruct (execute_query_values_template sql val rest st) as (tail & Hq & ->).
    by apply template_properties.
Qed.

(** C8: on a connection that owns its result set, every run of the three
    query templates keeps the invariant that at most one result set is
    alive and that it is the one [result_] owns.  When the session delivers
    a result set, the run replaces the owned one before anything is read:
    the result set owned before is deleted, [result_] owns the new one, and
    every row count, cursor move and column read of the run comes after
    [getResultSet] and is made on the new result set, never on the one owned
    before.  The reset is made with a null pointer as well. *)
Theorem result_is_reset_before_read sql (st : state) :
  owns_its_result st →
  (∀ T vec, result_superseded sql st (execute_query_column T sql vec st)) ∧
  (∀ T val, result_superseded sql st (execute_query_value T sql val st)) ∧
  (∀ val rest, result_superseded sql st (execute_query_values sql val rest st)).
Proof.
  intros Hown. split; [|split].
  - intros T vec. split.
    + destruct (execute_query_column_template T sql vec st) as (tail & Hq & ->).
      by apply template_properties.
    + destruct (execute_query_column_rows T sql vec st) as (k & Hq & Hk & ->).
      by apply template_supersedes.
  - intros T val. split.
    + destruct (execute_query_value_template T sql val st) as (tail & Hq & ->).
      by apply template_properties.
    + destruct (execute_query_value_rows T sql val st) as (k & Hq & Hk & ->).
      by apply template_supersedes.
  - intros val rest. split.
    + destruct (execute_query_values_template sql val rest st) as (tail & Hq & ->).
      by apply template_properties.
    + destruct (execute_query_values_rows sql val rest st) as (k & Hq & Hk & ->).
      by apply template_supersedes.
Qed.

Lemma try_catch_SQLException_no_throw (body : M bool) sql (st st' : state) e :
  try_catch body (catch_SQLException sql) st ≠ (Throw e, st').
Proof.
  unfold try_catch. by destruct (body st) as [[b|e'| |] st1].
Qed.

Lemma try_catch_SQLException_throw (body : M bool) sql (st st1 : state) e :
  body st = (Throw e, st1) →
  try_catch body (catch_SQLException sql) st
  = (Ret false, set_log (log st1 ++ exception_lines sql e) st1).
Proof. intros H. unfold try_catch. rewrite H. apply catch_SQLException_run. Qed.

(** A reconnect that raises makes [open_query] raise, and so does the
    dispatch of the statement, on a valid session or after a reconnect. *)
Lemma open_query_reconnect_raises sql (st : state) s1 s2 e :
  isValid (session st) = (Ok false, s1) →
  reconnect s1 = (Raise e, s2) →
  ∃ st1, open_query sql st = (Throw e, st1).
Proof.
  intros Hv Hr. unfold open_query, conn_isValid, conn_reconnect, driver_call.
  unfold_monad. cbn. rewrite Hv. cbn. rewrite Hr. cbn. by eexists.
Qed.

Lemma open_query_execute_raises sql (st : state) s1 s2 e :
  isValid (session st) = (Ok true, s1) →
  execute sql s1 = (Raise e, s2) →
  ∃ st1, open_query sql st = (Throw e, st1).
Proof.
  intros Hv Hr. unfold open_query, conn_isValid, stmt_execute, driver_call.
  unfold_monad. cbn. rewrite Hv. cbn. rewrite Hr. cbn. by eexists.
Qed.

Lemma open_query_execute_raises_after_reconnect sql (st : state) s1 s2 s3 b e :
  isValid (session st) = (Ok false, s1) →
  reconnect s1 = (Ok b, s2) →
  execute sql s2 = (Raise e, s3) →
  ∃ st1, open_query sql st = (Throw e, st1).
Proof.
  intros Hv Hr He.
  unfold open_query, conn_isValid, conn_reconnect, stmt_execute, driver_call.
  unfold_monad. cbn. rewrite Hv. cbn. rewrite Hr. cbn. rewrite He. cbn. by eexists.
Qed.

Lemma open_query_raise_caught sql (st st1 : state) e :
  open_query sql st = (Throw e, st1) → caught_in_open_query sql st e.
Proof.
  intros H. exists st1.
  destruct (open_query_frame _ _ _ _ H) as (_ & <- & _).
  repeat split; intros; apply try_catch_SQLException_throw.
  - rewrite execute_query_column_try_open. by apply bind_throw.
  - rewrite execute_query_value_try_open. by apply bind_throw.
  - rewrite execute_query_values_try_open. by apply bind_throw.
Qed.

(** C5: no driver exception escapes from [execute_query_column],
    [execute_query_value] or [execute_query_values].  An exception raised in
    the try block is turned into the return value false, and the log
    receives the statement text, the message, the error code and the SQL
    state of the exception, in this order; so it is in particular for an
    exception raised by the reconnect and for one raised by the dispatch of
    the statement. *)
Theorem driver_exceptions_are_caught sql (st : state) :
  (∀ T vec e st', execute_query_column T sql vec st ≠ (Throw e, st')) ∧
  (∀ T val e st', execute_query_value T sql val st ≠ (Throw e, st')) ∧
  (∀ val rest e st', execute_query_values sql val rest st ≠ (Throw e, st')) ∧
  (∀ T vec e st1,
     execute_query_column_try T sql vec st = (Throw e, st1) →
     execute_query_column T sql vec st
     = (Ret false, set_log (log st1 ++ exception_lines sql e) st1)) ∧
  (∀ T val e st1,
     execute_query_value_try T sql val st = (Throw e, st1) →
     execute_query_value T sql val st
     = (Ret false, set_log (log st1 ++ exception_lines sql e) st1)) ∧
  (∀ val rest e st1,
     execute_query_values_try sql val rest st = (Throw e, st1) →
     execute_query_values sql val rest st
     = (Ret false, set_log (log st1 ++ exception_lines sql e) st1)) ∧
  (∀ s1 s2 e,
     isValid (session st) = (Ok false, s1) → reconnect s1 = (Raise e, s2) →
     caught_in_open_query sql st e) ∧
  (∀ s1 s2 e,
     isValid (session st) = (Ok true, s1) → execute sql s1 = (Raise e, s2) →
     caught_in_open_query sql st e) ∧
  (∀ s1 s2 s3 b e,
     isValid (session st) = (Ok false, s1) → reconnect s1 = (Ok b, s2) →
     execute sql s2 = (Raise e, s3) →
     caught_in_open_query sql st e).
Proof.
  repeat split; intros.
  - apply try_catch_SQLException_no_throw.
  - apply try_catch_SQLException_no_throw.
  - apply try_catch_SQLException_no_throw.
  - by apply try_catch_SQLException_throw.
  - by apply try_catch_SQLException_throw.
  - by apply try_catch_SQLException_throw.
  - edestruct open_query_reconnect_raises as [st1 Hopen]; [done..|].
    by eapply open_query_raise_caught.
  - edestruct open_query_execute_raises as [st1 Hopen]; [done..|].
    by eapply open_query_raise_caught.
  - edestruct open_query_execute_raises_after_reconnect as [st1 Hopen]; [done..|].
    by eapply open_query_raise_caught.
Qed.

(** ** The loop of [execute_query_column] *)

Lemma binding_handle T h h' t k i :
  binding T (on_row h t k) i = binding T (on_row h' t k) i.
Proof. by destruct T. Qed.

Lemma vec_push_back_run vec r_val (st : state) elems v :
  mem st !! vec = Some (Vector elems) →
  mem st !! r_val = Some (Scalar v) →
  vec_push_back vec r_val st
  = (Ret (), set_mem (<[vec := Vector (elems ++ [v])]> (mem st)) st).
Proof.
  intros Hvec Hr. unfold vec_push_back, store. unfold_monad. cbn.
  by rewrite Hvec, Hr.
Qed.

Lemma vec_clear_run vec (st : state) elems :
  mem st !! vec = Some (Vector elems) →
  vec_clear vec st = (Ret (), set_mem (<[vec := Vector []]> (mem st)) st).
Proof. intros Hvec. unfold vec_clear, store. unfold_monad. cbn. by rewrite Hvec. Qed.

(** With a supported type the loop logs nothing; in any case it visits
    the remaining rows in order and appends what [collect] says. *)
Lemma column_loop T vec h t :
  ∀ n k fuel flag (st : state) acc m robj,
    result_ st = Some (on_row h t k) →
    length (tbl_rows t) = (k + n)%nat →
    (n < fuel)%nat →
    mem st = m ++ [robj] →
    m !! vec = Some (Vector acc) →
    ∃ st' robj',
      while_result_next fuel
        (λ ret_flag,
           ok ← raw_query_value T 1 (length m);
           if ok : bool then vec_push_back vec (length m);; mret true
           else mret ret_flag) flag st
      = (match (collect T t k n).2 with
         | None => Ret (match (collect T t k n).1 with [] => flag | _ => true end)
         | Some e => Throw e
         end, st') ∧
      mem st' = <[vec := Vector (acc ++ (collect T t k n).1)]> m ++ [robj'] ∧
      (supported T = true → log st' = log st).
Proof.
  induction n as [|n IH]; intros k fuel flag st acc m robj Hrs Hlen Hfuel Hmem Hvec.
  - destruct fuel as [|fuel]; [lia|]. cbn [while_result_next collect fst snd].
    erewrite bind_ret by (by apply result_next_run).
    unfold rs_next, rs_rows. cbn. rewrite Hlen.
    rewrite decide_False by lia. cbn.
    eexists _, robj. split; [reflexivity|]. cbn. split; [|done].
    rewrite app_nil_r, list_insert_id by done. done.
  - destruct fuel as [|fuel]; [lia|]. cbn [while_result_next].
    erewrite bind_ret by (by apply result_next_run).
    unfold rs_next, rs_rows. cbn. rewrite Hlen.
    rewrite decide_True by lia. cbn.
    pose proof (lookup_lt_Some _ _ _ Hvec) as Hlt.
    set (st1 := set_result_ _ _).
    assert (result_ st1 = Some (on_row h t (S k))) as Hrs1 by done.
    cbn [collect]. rewrite <- (binding_handle T h 0%nat).
    pose proof (raw_query_value_run T 1 (length m) st1 _ Hrs1 ltac:(done)) as Hrun.
    destruct (binding T (on_row h t (S k)) 1) as [[a [v|e]]|] eqn:Hb.
    + assert (mem (filled a (on_row h t (S k)) 1 (length m) v st1)
              = m ++ [Scalar v]) as Hfilled.
      { cbn. rewrite Hmem, insert_app_r_alt, Nat.sub_diag by done. done. }
      erewrite bind_ret; last first.
      { erewrite bind_ret by exact Hrun. cbn.
        erewrite bind_ret; [reflexivity|].
        apply (vec_push_back_run _ _ _ acc v); rewrite Hfilled.
        - by rewrite lookup_app_l.
        - by rewrite lookup_app_r, Nat.sub_diag by done. }
      rewrite Hfilled, insert_app_l by done.
      match goal with
      | |- context [while_result_next fuel _ true ?s] =>
          destruct (IH (S k) fuel true s (acc ++ [v])
                      (<[vec := Vector (acc ++ [v])]> m) (Scalar v))
            as (st' & robj' & Hloop & Hmem' & Hlog');
            [done | lia | lia | done | by apply list_lookup_insert_eq |]
      end.
      rewrite length_insert in Hloop. rewrite Hloop.
      destruct (collect T t (S k) n) as [vs raised]. cbn in *.
      eexists st', robj'. split; [by destruct raised, vs|].
      split; [|done].
      rewrite Hmem', list_insert_insert_eq, <- app_assoc. done.
    + erewrite bind_throw by (erewrite bind_throw by exact Hrun; reflexivity).
      cbn. eexists _, robj. split; [reflexivity|]. cbn. split; [|done].
      rewrite Hmem, app_nil_r, list_insert_id by done. done.
    + erewrite bind_ret by (erewrite bind_ret by exact Hrun; reflexivity).
      cbn.
      match goal with
      | |- context [while_result_next fuel _ flag ?s] =>
          destruct (IH (S k) fuel flag s acc m robj)
            as (st' & robj' & Hloop & Hmem' & Hlog');
            [done | lia | lia | done | done |]
      end.
      rewrite Hloop. eexists st', robj'. split; [done|]. split; [done|].
      intros HT. destruct T; done.
Qed.

Lemma collect_unsupported T t :
  supported T = false → ∀ n k, collect T t k n = ([], None).
Proof.
  intros HT. induction n as [|n IH]; intros k; [done|].
  cbn [collect]. destruct T; try discriminate. cbn. apply IH.
Qed.

Lemma collect_all T t :
  supported T = true →
  ∀ n k, (collect T t k n).2 = None → length (collect T t k n).1 = n.
Proof.
  intros HT. induction n as [|n IH]; intros k; [done|].
  cbn [collect].
  destruct (binding T (on_row 0%nat t (S k)) 1) as [[a [v|e]]|] eqn:Hb.
  - specialize (IH (S k)). destruct (collect T t (S k) n) as [vs raised].
    cbn in *. intros Hr. by rewrite IH.
  - done.
  - destruct T; done.
Qed.

(** With a supported type the values collected are those of the rows, in
    result order. *)
Lemma collect_lookup T t :
  supported T = true →
  ∀ n k j v, (collect T t k n).1 !! j = Some v →
    ∃ a, binding T (on_row 0%nat t (S (k + j))) 1 = Some (a, Ok v).
Proof.
  intros HT. induction n as [|n IH]; intros k j v; [done|].
  cbn [collect].
  destruct (binding T (on_row 0%nat t (S k)) 1) as [[a [v0|e]]|] eqn:Hb.
  - specialize (IH (S k)). destruct (collect T t (S k) n) as [vs raised].
    cbn in *. destruct j as [|j]; cbn.
    + intros [= <-]. rewrite Nat.add_0_r. by exists a.
    + intros Hj. destruct (IH j v Hj) as [a' Ha']. exists a'.
      by rewrite Nat.add_succ_r.
  - done.
  - destruct T; done.
Qed.

(** ** Claim about the column template *)

(** C3, as the code has it: on a result set without rows
    [execute_query_column] returns false and leaves the vector alone.
    Otherwise it clears the vector and reads column 1 of the rows in result
    order, appending each value read.  Whether a row is read is decided by
    the slot type and the accessor: with an unsupported type no value is
    appended, with a supported type every row is, up to the first row on
    which the accessor raises.  The call returns a boolean in every case;
    it is true exactly when no accessor raised and at least one value was
    appended.  When the accessor raises on a row the call returns false,
    logs the exception and the vector keeps the values appended before. *)
Theorem execute_query_column_collects T sql vec (st st1 : state) rs old :
  open_query sql st = (Ret (), st1) →
  result_ st1 = Some rs →
  mem st !! vec = Some (Vector old) →
  let n := length (rs_rows rs) in
  let vs := (collect T (rs_table rs) 0 n).1 in
  let raised := (collect T (rs_table rs) 0 n).2 in
  (n = 0%nat →
     ∃ st', execute_query_column T sql vec st = (Ret false, st') ∧
            mem st' = mem st ∧ log st' = log st) ∧
  (n ≠ 0%nat →
     ∃ b st', execute_query_column T sql vec st = (Ret b, st') ∧
       mem st' = <[vec := Vector vs]> (mem st) ∧
       (b = true ↔ raised = None ∧ vs ≠ []) ∧
       (∀ e, raised = Some e → log st' = log st ++ exception_lines sql e)) ∧
  (supported T = false → vs = [] ∧ raised = None) ∧
  (supported T = true → raised = None → length vs = n) ∧
  (supported T = true →
     ∀ j v, vs !! j = Some v →
       ∃ a, binding T (on_row 0%nat (rs_table rs) (S j)) 1 = Some (a, Ok v)).
Proof.
  intros Hopen Hrs Hvec n vs raised.
  destruct (open_query_frame _ _ _ _ Hopen) as (Hmem & Hlog & _ & _).
  destruct (open_query_result _ _ _ _ Hopen Hrs) as [Hpos Hh].
  assert (∀ k : Z → M bool,
            try_catch (open_query sql ≫= λ _, n ← result_rowsCount; k n)
              (catch_SQLException sql) st
            = try_catch (k (Z.of_nat n)) (catch_SQLException sql)
                (observe (Call_rowsCount (rs_handle rs)) st1)) as Hstart.
  { intros k. unfold try_catch. erewrite bind_ret by exact Hopen.
    by erewrite bind_ret by (by apply result_rowsCount_run). }
  unfold execute_query_column.
  rewrite (try_catch_ext _ _ _ _ (execute_query_column_try_open T sql vec st)).
  rewrite (Hstart (λ n, if bool_decide (n = 0) then mret false else _)).
  split; [|split; [|split; [|split]]].
  - intros Hn. rewrite Hn. cbn. eexists. split; [reflexivity|]. by cbn.
  - intros Hn. rewrite bool_decide_eq_false_2 by lia.
    set (st2 := observe _ st1).
    assert (mem st2 !! vec = Some (Vector old)) as Hvec2 by (cbn; by rewrite Hmem).
    pose proof (lookup_lt_Some _ _ _ Hvec) as Hlt.
    unfold try_catch. erewrite bind_ret by (by eapply vec_clear_run).
    unfold with_local. cbn [mem set_mem].
    erewrite (bind_ret (gets loop_bound)) by reflexivity.
    replace (mem st2) with (mem st) by (cbn; by rewrite Hmem).
    set (m := <[vec := Vector []]> (mem st)).
    assert (length m = length (mem st)) as Hlenm by apply length_insert.
    match goal with
    | |- context [while_result_next ?fuel ?body false ?s] =>
        destruct (column_loop T vec (rs_handle rs) (rs_table rs) n 0 fuel false s
                    [] m (default_init T))
          as (st' & robj' & Hloop & Hmem' & Hlog')
    end.
    { cbn. rewrite Hrs. unfold on_row. destruct rs. cbn in Hpos. by subst. }
    { done. }
    { unfold loop_bound. cbn. rewrite Hrs. fold n. lia. }
    { done. }
    { apply list_lookup_insert_eq. done. }
    rewrite Hloop. fold vs raised in Hloop, Hmem' |- *. rewrite Hlenm.
    assert (take (length (mem st)) (mem st') = <[vec := Vector vs]> (mem st)) as Htake.
    { rewrite Hmem'. cbn. unfold m. rewrite list_insert_insert_eq.
      rewrite take_app_length'; [done|]. by rewrite length_insert. }
    assert (raised ≠ None → supported T = true) as Hsup.
    { intros Hr. destruct (supported T) eqn:HT; [done|]. exfalso. apply Hr.
      unfold raised. by rewrite collect_unsupported. }
    destruct raised as [e|] eqn:Hraised.
    + rewrite catch_SQLException_run. exists false. eexists. split; [reflexivity|].
      cbn. split; [done|]. split; [split; [done | by intros [? _]]|].
      intros e' [= <-]. rewrite Hlog' by (by apply Hsup). cbn. by rewrite Hlog.
    + eexists _, _. split; [reflexivity|]. cbn. split; [done|]. split; [|done].
      destruct vs; split; try done. by intros [_ ?].
  - intros HT. unfold vs, raised. by rewrite collect_unsupported.
  - intros HT. by apply collect_all.
  - intros HT j v Hj. by apply (collect_lookup T (rs_table rs) HT n 0%nat j v).
Qed.

(** * Further properties *)

(** ** More on the recursion over the slots *)

Lemma binding_None_supported T rs i : binding T rs i = None → supported T = false.
Proof. by destruct T. Qed.

Lemma binding_Some_supported T rs i x : binding T rs i = Some x → supported T = true.
Proof. by destruct T. Qed.

Lemma last_default_irrelevant {A} (l : list A) (a d d' : A) :
  List.last (a :: l) d = List.last (a :: l) d'.
Proof.
  revert a. induction l as [|b l IH]; intros a; [done|].
  change (List.last (b :: l) d = List.last (b :: l) d'). apply IH.
Qed.

Lemma last_slot_cons val next rest : last_slot val (next :: rest) = last_slot next rest.
Proof.
  unfold last_slot. destruct rest as [|r rest]; [done|].
  change (List.last (r :: rest) val = List.last (r :: rest) next).
  apply last_default_irrelevant.
Qed.

(** The memory [fill_slots] yields depends on the memory it starts from only. *)
Lemma fill_slots_mem_ext rs (slots : list slot) :
  ∀ i (st1 st2 : state), mem st1 = mem st2 →
    mem (fill_slots rs i slots st1) = mem (fill_slots rs i slots st2).
Proof.
  induction slots as [|[T val] slots IH]; intros i st1 st2 Hmem; [done|].
  cbn. apply IH. destruct (binding T rs i) as [[a [v|e]]|]; cbn; by rewrite ?Hmem.
Qed.

(** The recursion when no accessor raises: every slot of a supported type
    is filled, and what is returned is what the last slot returns. *)
Lemma raw_query_value_variadic_no_raise rest :
  ∀ idx val (st : state) rs,
    result_ st = Some rs →
    0 ≤ idx → idx + Z.of_nat (length rest) < 2 ^ 32 →
    no_raise rs idx (val :: rest) →
    ∃ st', raw_query_value_variadic idx val rest st
           = (Ret (supported (last_slot val rest).1), st') ∧
           mem st' = mem (fill_slots rs idx (val :: rest) st) ∧
           result_ st' = Some rs.
Proof.
  induction rest as [|next rest IH]; intros idx [T val] st rs Hrs Hlo Hhi [Hhead Htail].
  - cbn [raw_query_value_variadic fill_slots fst snd last_slot List.last].
    rewrite (raw_query_value_run T idx val st rs Hrs) by (unfold Int.is_uint32; cbn in Hhi; lia).
    destruct (binding T rs idx) as [[a [v|e]]|] eqn:Hb.
    + rewrite (binding_Some_supported _ _ _ _ Hb). by eexists.
    + by destruct (Hhead a e).
    + rewrite (binding_None_supported _ _ _ Hb). by eexists.
  - cbn [length] in Hhi. rewrite last_slot_cons.
    cbn [raw_query_value_variadic fill_slots fst snd].
    pose proof (raw_query_value_run T idx val st rs Hrs
                  ltac:(unfold Int.is_uint32; lia)) as Hrun.
    rewrite to_uint32_id by (unfold Int.is_uint32; lia).
    destruct (binding T rs idx) as [[a [v|e]]|] eqn:Hb.
    + erewrite bind_ret by exact Hrun.
      apply IH; [done | lia | lia | done].
    + by destruct (Hhead a e).
    + erewrite bind_ret by exact Hrun.
      destruct (IH (idx + 1) next (set_log (log st ++ [unsupported_line T]) st) rs)
        as (st' & Hrec & Hmem & Hres); [done | lia | lia | done |].
      exists st'. split; [done|]. split; [|done].
      rewrite Hmem.
      exact (fill_slots_mem_ext rs (next :: rest) (idx + 1)
               (set_log (log st ++ [unsupported_line T]) st) st eq_refl).
Qed.

(** The recursion when the accessor raises on slot [j] (counted from 0) and
    on no slot before it: the exception leaves the recursion there. *)
Lemma raw_query_value_variadic_raise rest :
  ∀ idx val (st : state) rs j T l a e,
    result_ st = Some rs →
    0 ≤ idx → idx + Z.of_nat (length rest) < 2 ^ 32 →
    (val :: rest) !! j = Some (T, l) →
    binding T rs (idx + Z.of_nat j) = Some (a, Raise e) →
    no_raise rs idx (take j (val :: rest)) →
    ∃ st', raw_query_value_variadic idx val rest st = (Throw e, st') ∧
           mem st' = mem (fill_slots rs idx (take j (val :: rest)) st).
Proof.
  induction rest as [|next rest IH];
    intros idx [T0 val] st rs j T l a e Hrs Hlo Hhi Hj Hb Hpre.
  - destruct j as [|j]; [|done]. injection Hj as -> ->.
    rewrite Z.add_0_r in Hb. cbn [raw_query_value_variadic fst snd].
    rewrite (raw_query_value_run T idx l st rs Hrs) by (unfold Int.is_uint32; cbn in Hhi; lia).
    rewrite Hb. by eexists.
  - cbn [length] in Hhi.
    pose proof (raw_query_value_run T0 idx val st rs Hrs
                  ltac:(unfold Int.is_uint32; lia)) as Hrun.
    cbn [raw_query_value_variadic fst snd].
    destruct j as [|j].
    + injection Hj as -> ->. rewrite Z.add_0_r in Hb. rewrite Hb in Hrun.
      erewrite bind_throw by exact Hrun. by eexists.
    + cbn in Hj. cbn [take] in Hpre |- *. destruct Hpre as [Hhead Hpre].
      rewrite to_uint32_id by (unfold Int.is_uint32; lia).
      assert (binding T rs (idx + 1 + Z.of_nat j) = Some (a, Raise e)) as Hb'.
      { rewrite <- Hb. f_equal. lia. }
      cbn [fill_slots].
      destruct (binding T0 rs idx) as [[a0 [v|e0]]|] eqn:Hb0.
      * erewrite bind_ret by exact Hrun.
        eapply IH; [done | lia | lia | exact Hj | exact Hb' | exact Hpre].
      * by destruct (Hhead a0 e0).
      * erewrite bind_ret by exact Hrun.
        destruct (IH (idx + 1) next (set_log (log st ++ [unsupported_line T0]) st)
                    rs j T l a e) as (st' & Hrec & Hmem); [done | lia | lia | done..|].
        exists st'. split; [done|]. rewrite Hmem.
        exact (fill_slots_mem_ext rs (take j (next :: rest)) (idx + 1)
                 (set_log (log st ++ [unsupported_line T0]) st) st eq_refl).
Qed.

(** [execute_query_values] on a one-row result. *)
Lemma execute_query_values_one_row sql val rest (st st1 : state) rs :
  open_query sql st = (Ret (), st1) →
  result_ st1 = Some rs →
  length (rs_rows rs) = 1%nat →
  execute_query_values sql val rest st
  = try_catch (raw_query_value_variadic 1 val rest) (catch_SQLException sql)
      (checked_one_row rs st1).
Proof.
  intros Hopen Hrs Hlen.
  destruct (open_query_result _ _ _ _ Hopen Hrs) as [Hpos _].
  unfold execute_query_values, try_catch.
  rewrite execute_query_values_try_open. erewrite bind_ret by done.
  by rewrite (one_row_gate _ st1 rs Hrs Hpos), Hlen.
Qed.

(** X1: on a one-row result, when no accessor raises, [execute_query_values]
    returns what the extraction of the last slot returns, true for a
    supported type and false for an unsupported one, whatever happened to
    the slots before it; every slot of a supported type has been filled from
    its column. *)
Theorem execute_query_values_returns_last_slot sql val rest (st st1 : state) rs :
  open_query sql st = (Ret (), st1) →
  result_ st1 = Some rs →
  length (rs_rows rs) = 1%nat →
  Z.of_nat (length rest) < 2 ^ 32 - 1 →
  no_raise (on_row (rs_handle rs) (rs_table rs) 1) 1 (val :: rest) →
  ∃ st',
    execute_query_values sql val rest st
    = (Ret (supported (last_slot val rest).1), st') ∧
    mem st' = mem (fill_slots (on_row (rs_handle rs) (rs_table rs) 1) 1 (val :: rest) st).
Proof.
  intros Hopen Hrs Hlen Hn Hquiet.
  destruct (open_query_frame _ _ _ _ Hopen) as (Hmem & _).
  rewrite (execute_query_values_one_row _ _ _ _ _ _ Hopen Hrs Hlen).
  destruct (raw_query_value_variadic_no_raise rest 1 val (checked_one_row rs st1)
              (on_row (rs_handle rs) (rs_table rs) 1))
    as (st' & Hrun & Hmem' & _); [done | lia | lia | done |].
  exists st'. unfold try_catch. rewrite Hrun. split; [done|].
  rewrite Hmem'. by apply fill_slots_mem_ext.
Qed.

(** X2: on a one-row result, when the accessor raises on slot [j] (counted
    from 0) and on no slot before it, [execute_query_values] returns false: the
    slots before [j] have been filled, and no other variable has changed, the
    slots after [j] included. *)
Theorem raising_slot_stops_extraction sql val rest (st st1 : state) rs j T l a e :
  open_query sql st = (Ret (), st1) →
  result_ st1 = Some rs →
  length (rs_rows rs) = 1%nat →
  Z.of_nat (length rest) < 2 ^ 32 - 1 →
  (val :: rest) !! j = Some (T, l) →
  binding T (on_row (rs_handle rs) (rs_table rs) 1) (1 + Z.of_nat j) = Some (a, Raise e) →
  no_raise (on_row (rs_handle rs) (rs_table rs) 1) 1 (take j (val :: rest)) →
  ∃ st',
    execute_query_values sql val rest st = (Ret false, st') ∧
    mem st'
    = mem (fill_slots (on_row (rs_handle rs) (rs_table rs) 1) 1 (take j (val :: rest)) st) ∧
    (∀ l', l' ∉ (take j (val :: rest)).*2 → mem st' !! l' = mem st !! l').
Proof.
  intros Hopen Hrs Hlen Hn Hj Hb Hpre.
  destruct (open_query_frame _ _ _ _ Hopen) as (Hmem & _).
  rewrite (execute_query_values_one_row _ _ _ _ _ _ Hopen Hrs Hlen).
  destruct (raw_query_value_variadic_raise rest 1 val (checked_one_row rs st1)
              (on_row (rs_handle rs) (rs_table rs) 1) j T l a e)
    as (st' & Hrun & Hmem'); [done | lia | lia | done..|].
  unfold try_catch. rewrite Hrun, catch_SQLException_run.
  eexists. split; [done|]. cbn [mem set_log].
  assert (mem st'
          = mem (fill_slots (on_row (rs_handle rs) (rs_table rs) 1) 1
                   (take j (val :: rest)) st)) as Heq.
  { rewrite Hmem'. by apply fill_slots_mem_ext. }
  split; [done|]. intros l' Hl'. rewrite Heq. by apply fill_slots_other.
Qed.

(** ** A statement without a result set *)

(** X3: when the driver hands back a null pointer for the result set of the
    statement, each of the three templates dereferences the null [result_]
    in its row-count test: the behaviour is undefined, and the call stops in
    the state the reset of [result_] left. *)
Theorem null_result_set_is_dereferenced sql (st st1 : state) :
  open_query sql st = (Ret (), st1) →
  result_ st1 = None →
  (∀ T vec, execute_query_column T sql vec st = (Crash, st1)) ∧
  (∀ T val, execute_query_value T sql val st = (Crash, st1)) ∧
  (∀ val rest, execute_query_values sql val rest st = (Crash, st1)).
Proof.
  intros Hopen Hnull.
  assert (∀ k : Z → M bool, (n ← result_rowsCount; k n) st1 = (Crash, st1)) as Hderef.
  { intros k. unfold_prims. unfold_monad. cbn. by rewrite Hnull. }
  repeat split; intros.
  - unfold execute_query_column, try_catch.
    rewrite execute_query_column_try_open. erewrite bind_ret by done.
    by rewrite (Hderef (λ n, if bool_decide (n = 0) then mret false else _)).
  - unfold execute_query_value, try_catch.
    rewrite execute_query_value_try_open. erewrite bind_ret by done.
    by rewrite (Hderef (λ n, if bool_decide (n = 0) then mret false else _)).
  - unfold execute_query_values, try_catch.
    rewrite execute_query_values_try_open. erewrite bind_ret by done.
    by rewrite (Hderef (λ n, if bool_decide (n = 0) then mret false else _)).
Qed.

(** [getResultSet] returning a null pointer on a valid session is such a
    statement. *)
Lemma open_query_null sql (st : state) s1 s2 s3 b :
  isValid (session st) = (Ok true, s1) →
  execute sql s1 = (Ok b, s2) →
  getResultSet s2 = (Ok None, s3) →
  ∃ st1, open_query sql st = (Ret (), st1) ∧ result_ st1 = None.
Proof.
  intros Hv He Hg.
  unfold open_query, conn_isValid, stmt_execute, stmt_getResultSet, result_reset,
    driver_call.
  unfold_monad. cbn. rewrite Hv. cbn. rewrite He. cbn. rewrite Hg. cbn. by eexists.
Qed.

(** ** Narrowing to 32 bits *)

(** X4: a 64-bit column read into an [int] or an [unsigned int] slot is reduced
    modulo 2^32 into the range of the slot type, and the extraction returns
    true all the same: the slot holds the column's value exactly when that
    value fits the slot type. *)
Theorem raw_query_value_narrows idx val (st : state) rs :
  result_ st = Some rs →
  Int.is_uint32 idx →
  (∀ z, rs_getInt64 rs idx = Ok z →
     ∃ z', raw_query_value TInt idx val st
           = (Ret true, filled GetInt64 rs idx val (VInt z') st) ∧
           -2 ^ 31 ≤ z' < 2 ^ 31 ∧ (z' - z) mod 2 ^ 32 = 0 ∧
           (z' = z ↔ -2 ^ 31 ≤ z < 2 ^ 31)) ∧
  (∀ z, rs_getUInt64 rs idx = Ok z →
     ∃ z', raw_query_value TUInt idx val st
           = (Ret true, filled GetUInt64 rs idx val (VUInt z') st) ∧
           0 ≤ z' < 2 ^ 32 ∧ (z' - z) mod 2 ^ 32 = 0 ∧
           (z' = z ↔ 0 ≤ z < 2 ^ 32)).
Proof.
  intros Hrs Hidx. split; intros z Hz.
  - exists (Int.to_int32 z). split; [|apply to_int32_spec].
    rewrite (raw_query_value_run _ idx val st rs Hrs Hidx). cbn. by rewrite Hz.
  - exists (Int.to_uint32 z). split; [|apply to_uint32_spec].
    rewrite (raw_query_value_run _ idx val st rs Hrs Hidx). cbn. by rewrite Hz.
Qed.

(** ** What is left in [result_] *)

(** When the reconnect, the dispatch or [getResultSet] raises, the result
    set owned before stays owned. *)
Lemma open_query_raise_keeps_result sql (st st1 : state) e :
  open_query sql st = (Throw e, st1) →
  result_ st1 = result_ st ∧ live st1 = live st ∧ log st1 = log st.
Proof. revert st1. open_query_cases; by intros st1 [= <- <-]. Qed.

(** X5: after a call that failed because the reconnect, the dispatch of the
    statement or [getResultSet] raised, [get_result_set] still returns the
    result set of the query before, with its cursor where it was: [result_]
    is replaced only once a new result set has been obtained. *)
Theorem failed_query_keeps_previous_result sql (st st1 : state) e :
  open_query sql st = (Throw e, st1) →
  (∀ T vec, let r := execute_query_column T sql vec st in
            r.1 = Ret false ∧ (get_result_set r.2).1 = Ret (result_ st)) ∧
  (∀ T val, let r := execute_query_value T sql val st in
            r.1 = Ret false ∧ (get_result_set r.2).1 = Ret (result_ st)) ∧
  (∀ val rest, let r := execute_query_values sql val rest st in
               r.1 = Ret false ∧ (get_result_set r.2).1 = Ret (result_ st)).
Proof.
  intros Hopen.
  destruct (open_query_raise_keeps_result _ _ _ _ Hopen) as (Hres & _).
  repeat split.
  - unfold execute_query_column. erewrite try_catch_SQLException_throw; [done|].
    rewrite execute_query_column_try_open. by apply bind_throw.
  - unfold execute_query_column. erewrite try_catch_SQLException_throw.
    + cbn. by rewrite Hres.
    + rewrite execute_query_column_try_open. by apply bind_throw.
  - unfold execute_query_value. erewrite try_catch_SQLException_throw; [done|].
    rewrite execute_query_value_try_open. by apply bind_throw.
  - unfold execute_query_value. erewrite try_catch_SQLException_throw.
    + cbn. by rewrite Hres.
    + rewrite execute_query_value_try_open. by apply bind_throw.
  - unfold execute_query_values. erewrite try_catch_SQLException_throw; [done|].
    rewrite execute_query_values_try_open. by apply bind_throw.
  - unfold execute_query_values. erewrite try_catch_SQLException_throw.
    + cbn. by rewrite Hres.
    + rewrite execute_query_values_try_open. by apply bind_throw.
Qed.

Lemma execute_query_value_one_row T sql val (st st1 : state) rs :
  open_query sql st = (Ret (), st1) →
  result_ st1 = Some rs →
  length (rs_rows rs) = 1%nat →
  execute_query_value T sql val st
  = try_catch (raw_query_value T 1 val) (catch_SQLException sql)
      (checked_one_row rs st1).
Proof.
  intros Hopen Hrs Hlen.
  destruct (open_query_result _ _ _ _ Hopen Hrs) as [Hpos _].
  unfold execute_query_value, try_catch.
  rewrite execute_query_value_try_open. erewrite bind_ret by done.
  by rewrite (one_row_gate _ st1 rs Hrs Hpos), Hlen.
Qed.

(** X6: after [execute_query_value] or [execute_query_values] the result set of
    the query is what [get_result_set] returns, whatever the call returned:
    with the cursor still before the first row when the row count was not
    one, and on the only row otherwise (also when the extraction failed or
    raised). *)
Theorem result_set_stays_readable sql (st st1 : state) rs :
  open_query sql st = (Ret (), st1) →
  result_ st1 = Some rs →
  rs_pos rs = 0%nat ∧
  (length (rs_rows rs) ≠ 1%nat →
     (∀ T val,
        (get_result_set (execute_query_value T sql val st).2).1 = Ret (Some rs)) ∧
     (∀ val rest,
        (get_result_set (execute_query_values sql val rest st).2).1 = Ret (Some rs))) ∧
  (length (rs_rows rs) = 1%nat →
     (∀ T val,
        (get_result_set (execute_query_value T sql val st).2).1
        = Ret (Some (on_row (rs_handle rs) (rs_table rs) 1))) ∧
     (∀ val rest,
        (get_result_set (execute_query_values sql val rest st).2).1
        = Ret (Some (on_row (rs_handle rs) (rs_table rs) 1)))).
Proof.
  intros Hopen Hrs.
  destruct (open_query_result _ _ _ _ Hopen Hrs) as [Hpos _].
  split; [done|]. split.
  - intros Hlen.
    assert (∀ k : M bool,
              result_ (try_catch
                 (n ← result_rowsCount;
                  if bool_decide (n = 0) then mret false
                  else
                    n ← result_rowsCount;
                    if bool_decide (n ≠ 1) then
                      n ← result_rowsCount;
                      log_error [LText "Error rows count:"; LNum n];;
                      mret false
                    else
                      more ← result_next;
                      if more : bool then k else mret false)
                 (catch_SQLException sql) st1).2 = Some rs) as Hgate.
    { intros k. unfold try_catch. rewrite (one_row_gate _ st1 rs Hrs Hpos).
      by destruct (length (rs_rows rs)) as [|[|n]]. }
    split; intros.
    + unfold execute_query_value, try_catch.
      rewrite execute_query_value_try_open. erewrite bind_ret by done.
      cbn. f_equal. apply Hgate.
    + unfold execute_query_values, try_catch.
      rewrite execute_query_values_try_open. erewrite bind_ret by done.
      cbn. f_equal. apply Hgate.
  - intros Hlen. split; intros.
    + rewrite (execute_query_value_one_row _ _ _ _ _ _ Hopen Hrs Hlen). cbn. f_equal.
      rewrite keeps_result_try_catch; [done | apply keeps_result_raw_query_value |].
      intros e. apply keeps_result_catch_SQLException.
    + rewrite (execute_query_values_one_row _ _ _ _ _ _ Hopen Hrs Hlen). cbn. f_equal.
      rewrite keeps_result_try_catch;
        [done | apply keeps_result_raw_query_value_variadic |].
      intros e. apply keeps_result_catch_SQLException.
Qed.

(** ** The loop comes to an end *)

Lemma terminates_ret {A} (a : A) : terminates (mret a).
Proof. by intros st. Qed.

Lemma terminates_bind {A B} (m : M A) (f : A → M B) :
  terminates m → (∀ a, terminates (f a)) → terminates (m ≫= f).
Proof.
  intros Hm Hf st. specialize (Hm st). unfold_monad.
  destruct (m st) as [[a|e| |] st1]; cbn in *; try done.
  apply Hf.
Qed.

Lemma terminates_try_catch {A} (body : M A) handler :
  terminates body → (∀ e, terminates (handler e)) →
  terminates (try_catch body handler).
Proof.
  intros Hb Hh st. specialize (Hb st). unfold try_catch.
  destruct (body st) as [[a|e| |] st1]; cbn in *; try done.
  apply Hh.
Qed.

Lemma terminates_ext {A} (m m' : M A) :
  (∀ st, m st = m' st) → terminates m' → terminates m.
Proof. intros Heq Hm st. rewrite Heq. apply Hm. Qed.

Lemma terminates_with_local {A} init (block : loc → M A) :
  (∀ r, terminates (block r)) → terminates (with_local init block).
Proof.
  intros Hb st. unfold with_local.
  specialize (Hb (length (mem st)) (set_mem (mem st ++ [init]) st)).
  by destruct (block _ _) as [o st'].
Qed.

Lemma terminates_with_result {A} (k : ResultSet → M A) :
  (∀ rs, terminates (k rs)) → terminates (with_result k).
Proof.
  intros Hk st. unfold with_result. unfold_monad.
  destruct (result_ st) as [rs|]; [apply Hk | done].
Qed.

Lemma terminates_result_get {A} a (get : ResultSet → Z → result A) idx :
  terminates (result_get a get idx).
Proof.
  apply terminates_with_result. intros rs st. unfold_monad. cbn.
  by destruct (get rs idx).
Qed.

Lemma terminates_result_rowsCount : terminates result_rowsCount.
Proof. apply terminates_with_result. by intros rs st. Qed.

Lemma terminates_assign val v : terminates (assign val v).
Proof. by destruct v. Qed.

Lemma terminates_log_error line : terminates (log_error line).
Proof. by intros st. Qed.

Lemma terminates_vec_clear vec : terminates (vec_clear vec).
Proof.
  intros st. unfold vec_clear. unfold_monad. cbn.
  by destruct (mem st !! vec) as [[]|].
Qed.

Lemma terminates_vec_push_back vec r_val : terminates (vec_push_back vec r_val).
Proof.
  intros st. unfold vec_push_back. unfold_monad. cbn.
  destruct (mem st !! vec) as [[]|]; try done.
  by destruct (mem st !! r_val) as [[]|].
Qed.

Lemma terminates_raw_query_value T idx val : terminates (raw_query_value T idx val).
Proof.
  destruct T; cbn [raw_query_value];
    unfold raw_query_value_primary, raw_query_value_string, result_getDouble,
      result_getInt64, result_getUInt64, result_getString;
    cbn [typeid_eq orb];
    repeat first
      [ apply terminates_result_get | apply terminates_assign
      | apply terminates_log_error | apply terminates_ret
      | apply terminates_bind; [|intros ?] ].
Qed.

Lemma terminates_catch_SQLException sql e : terminates (catch_SQLException sql e).
Proof. intros st. by rewrite catch_SQLException_run. Qed.

Lemma terminates_open_query sql : terminates (open_query sql).
Proof.
  intros st. destruct (open_query sql st) as [o st1] eqn:Hopen.
  destruct (open_query_frame _ _ _ _ Hopen) as (_ & _ & [->|[e ->]] & _); done.
Qed.

(** Each call of [next] that says yes moves the cursor one row on: with a
    body that leaves [result_] alone the loop is over within as many
    iterations as there are rows after the cursor, and one more call. *)
Lemma while_result_next_terminates (body : bool → M bool) :
  (∀ flag, terminates (body flag)) →
  (∀ flag, keeps_result (body flag)) →
  ∀ fuel flag (st : state),
    (0 < fuel)%nat →
    (∀ rs, result_ st = Some rs → (length (rs_rows rs) - rs_pos rs < fuel)%nat) →
    (while_result_next fuel body flag st).1 ≠ OutOfFuel.
Proof.
  intros Hend Hkeep fuel.
  induction fuel as [|fuel IH]; intros flag st Hpos Hfuel; [lia|].
  cbn [while_result_next].
  destruct (result_ st) as [rs|] eqn:Hrs.
  - erewrite bind_ret by (by apply result_next_run).
    specialize (Hfuel rs eq_refl). unfold rs_next.
    destruct (decide (rs_pos rs < length (rs_rows rs))%nat) as [Hlt|Hge]; cbn [fst snd].
    + set (st2 := set_result_ _ _).
      pose proof (Hend flag st2) as Hb. pose proof (Hkeep flag st2) as Hr.
      unfold_monad.
      destruct (body flag st2) as [[b|e| |] st3]; cbn in *; try done.
      apply IH; [lia|]. intros rs' Hrs'. rewrite Hr in Hrs'.
      injection Hrs' as <-. unfold rs_rows in *. cbn. lia.
    + done.
  - unfold result_next, with_result. unfold_monad. by rewrite Hrs.
Qed.

Lemma terminates_execute_query_column T sql vec :
  terminates (execute_query_column T sql vec).
Proof.
  apply terminates_try_catch; [|apply terminates_catch_SQLException].
  eapply terminates_ext; [intros st; apply execute_query_column_try_open|].
  apply terminates_bind; [apply terminates_open_query | intros _].
  apply terminates_bind; [apply terminates_result_rowsCount | intros n].
  destruct (bool_decide (n = 0)); [apply terminates_ret|].
  apply terminates_bind; [apply terminates_vec_clear | intros _].
  apply terminates_with_local. intros r_val st.
  erewrite (bind_ret (gets loop_bound)) by reflexivity.
  apply while_result_next_terminates.
  - intros flag.
    apply terminates_bind; [apply terminates_raw_query_value | intros [|]].
    + apply terminates_bind; [apply terminates_vec_push_back | intros _].
      apply terminates_ret.
    + apply terminates_ret.
  - intros flag.
    apply keeps_result_bind; [apply keeps_result_raw_query_value | intros [|]].
    + apply keeps_result_bind; [apply keeps_result_vec_push_back | intros _].
      apply keeps_result_ret.
    + apply keeps_result_ret.
  - unfold loop_bound. destruct (result_ st); lia.
  - intros rs Hrs. unfold loop_bound. rewrite Hrs. lia.
Qed.

(** X7: [execute_query_column] returns for every session, statement and result
    set: the [while (result_->next())] loop needs no more calls of [next]
    than the result set has rows, and one.  The call ends with a boolean, or
    in the undefined behaviour of a null [result_] or a vector that is none;
    no exception leaves it. *)
Theorem execute_query_column_returns T sql vec (st : state) :
  ∃ st', execute_query_column T sql vec st = (Ret true, st') ∨
         execute_query_column T sql vec st = (Ret false, st') ∨
         execute_query_column T sql vec st = (Crash, st').
Proof.
  pose proof (terminates_execute_query_column T sql vec st) as Hend.
  destruct (execute_query_column T sql vec st) as [[[|]|e| |] st'] eqn:Hrun;
    exists st'; auto.
  - by apply try_catch_SQLException_no_throw in Hrun.
  - done.
Qed.

(** ** Which variables a call writes *)

Lemma untouched_outside_trans L (st1 st2 st3 : state) :
  untouched_outside L st1 st2 → untouched_outside L st2 st3 →
  untouched_outside L st1 st3.
Proof.
  intros [Hl1 H1] [Hl2 H2]. split; [congruence|].
  intros l Hl. rewrite H2, H1; done.
Qed.

Lemma frames_same_mem {A} L (m : M A) :
  (∀ st, mem (m st).2 = mem st) → frames L m.
Proof. intros Hm st. unfold untouched_outside. by rewrite Hm. Qed.

Lemma frames_ret {A} L (a : A) : frames L (mret a).
Proof. by apply frames_same_mem. Qed.

Lemma frames_bind {A B} L (m : M A) (f : A → M B) :
  frames L m → (∀ a, frames L (f a)) → frames L (m ≫= f).
Proof.
  intros Hm Hf st. specialize (Hm st). unfold_monad.
  destruct (m st) as [[a|e| |] st1]; cbn in *; try done.
  eapply untouched_outside_trans; [done | apply Hf].
Qed.

Lemma frames_try_catch {A} L (body : M A) handler :
  frames L body → (∀ e, frames L (handler e)) → frames L (try_catch body handler).
Proof.
  intros Hb Hh st. specialize (Hb st). unfold try_catch.
  destruct (body st) as [[a|e| |] st1]; cbn in *; try done.
  eapply untouched_outside_trans; [done | apply Hh].
Qed.

Lemma frames_ext {A} L (m m' : M A) :
  (∀ st, m st = m' st) → frames L m' → frames L m.
Proof. intros Heq Hm st. rewrite Heq. apply Hm. Qed.

Lemma frames_store L l o : l ∈ L → frames L (store l o).
Proof.
  intros Hl st. split; cbn; [apply length_insert|].
  intros l' Hl'. apply list_lookup_insert_ne. by intros ->.
Qed.

Lemma frames_assign L val v : val ∈ L → frames L (assign val v).
Proof.
  intros Hval. destruct v; [by apply frames_store | by apply frames_same_mem].
Qed.

Lemma frames_vec_clear L vec : vec ∈ L → frames L (vec_clear vec).
Proof.
  intros Hvec. unfold vec_clear.
  apply frames_bind; [by apply frames_same_mem | intros m].
  destruct (m !! vec) as [[]|];
    first [by apply frames_store | by apply frames_same_mem].
Qed.

Lemma frames_vec_push_back L vec r_val : vec ∈ L → frames L (vec_push_back vec r_val).
Proof.
  intros Hvec. unfold vec_push_back.
  apply frames_bind; [by apply frames_same_mem | intros m].
  destruct (m !! vec) as [[]|]; try (by apply frames_same_mem).
  destruct (m !! r_val) as [[]|];
    first [by apply frames_store | by apply frames_same_mem].
Qed.

Lemma frames_result_get {A} L a (get : ResultSet → Z → result A) idx :
  frames L (result_get a get idx).
Proof.
  apply frames_same_mem. intros st. unfold result_get, with_result. unfold_monad.
  cbn. destruct (result_ st) as [rs|]; cbn; [|done]. by destruct (get rs idx).
Qed.

Lemma frames_result_rowsCount L : frames L result_rowsCount.
Proof.
  apply frames_same_mem. intros st. unfold result_rowsCount, with_result.
  unfold_monad. cbn. by destruct (result_ st).
Qed.

Lemma frames_result_next L : frames L result_next.
Proof.
  apply frames_same_mem. intros st. unfold result_next, with_result.
  unfold_monad. cbn. by destruct (result_ st).
Qed.

Lemma frames_log_error L line : frames L (log_error line).
Proof. by apply frames_same_mem. Qed.

Lemma frames_catch_SQLException L sql e : frames L (catch_SQLException sql e).
Proof. apply frames_same_mem. intros st. by rewrite catch_SQLException_run. Qed.

Lemma frames_open_query L sql : frames L (open_query sql).
Proof.
  apply frames_same_mem. intros st.
  destruct (open_query sql st) as [o st1] eqn:Hopen.
  by destruct (open_query_frame _ _ _ _ Hopen) as (Hmem & _).
Qed.

Lemma frames_raw_query_value L T idx val :
  val ∈ L → frames L (raw_query_value T idx val).
Proof.
  intros Hval.
  destruct T; cbn [raw_query_value];
    unfold raw_query_value_primary, raw_query_value_string, result_getDouble,
      result_getInt64, result_getUInt64, result_getString;
    cbn [typeid_eq orb];
    repeat first
      [ apply frames_result_get | by apply frames_assign
      | apply frames_log_error | apply frames_ret
      | apply frames_bind; [|intros ?] ].
Qed.

Lemma frames_raw_query_value_variadic L rest :
  ∀ idx val, val.2 ∈ L → (∀ s, s ∈ rest → s.2 ∈ L) →
    frames L (raw_query_value_variadic idx val rest).
Proof.
  induction rest as [|next rest IH]; intros idx val Hval Hrest; cbn.
  - by apply frames_raw_query_value.
  - apply frames_bind; [by apply frames_raw_query_value | intros _].
    apply IH; [apply Hrest; left|]. intros s Hs. apply Hrest. by right.
Qed.

Lemma frames_while_result_next L (body : bool → M bool) :
  (∀ flag, frames L (body flag)) →
  ∀ fuel flag, frames L (while_result_next fuel body flag).
Proof.
  intros Hbody fuel. induction fuel as [|fuel IH]; intros flag; cbn.
  - by apply frames_same_mem.
  - apply frames_bind; [apply frames_result_next | intros [|]].
    + apply frames_bind; [apply Hbody | intros flag'; apply IH].
    + apply frames_ret.
Qed.

(** A local variable is gone at the end of its block: what the block
    writes besides it is what the statement writes. *)
Lemma frames_with_local {A} L init (block : loc → M A) :
  (∀ r, frames (r :: L) (block r)) → frames L (with_local init block).
Proof.
  intros Hb st. unfold with_local.
  specialize (Hb (length (mem st)) (set_mem (mem st ++ [init]) st)).
  destruct (block _ _) as [o st']. destruct Hb as [Hlen Hout]. cbn in *.
  rewrite length_app in Hlen. cbn in Hlen.
  split; cbn.
  - rewrite length_take. lia.
  - intros l Hl. destruct (decide (l < length (mem st))%nat) as [Hlt|Hge].
    + rewrite lookup_take_lt by lia. rewrite Hout.
      * by rewrite lookup_app_l by lia.
      * apply not_elem_of_cons. split; [lia | done].
    + rewrite lookup_take_ge by lia. symmetry. apply lookup_ge_None. lia.
Qed.

Lemma frames_one_row_gate L (k : M bool) :
  frames L k →
  frames L (n ← result_rowsCount;
            if bool_decide (n = 0) then mret false
            else
              n ← result_rowsCount;
              if bool_decide (n ≠ 1) then
                n ← result_rowsCount;
                log_error [LText "Error rows count:"; LNum n];;
                mret false
              else
                more ← result_next;
                if more : bool then k else mret false).
Proof.
  intros Hk.
  apply frames_bind; [apply frames_result_rowsCount | intros n].
  destruct (bool_decide (n = 0)); [apply frames_ret|].
  apply frames_bind; [apply frames_result_rowsCount | intros n'].
  destruct (bool_decide (n' ≠ 1)).
  - apply frames_bind; [apply frames_result_rowsCount | intros n''].
    apply frames_bind; [apply frames_log_error | intros _]. apply frames_ret.
  - apply frames_bind; [apply frames_result_next | intros [|]];
      [done | apply frames_ret].
Qed.

(** X8: whatever the session answers and however the call ends (true, false,
    a caught exception), a call writes no variable but its outputs: the
    vector of [execute_query_column], the slot of [execute_query_value], the
    slots of [execute_query_values].  Every other variable of the caller
    keeps its content, and the local [r_val] of [execute_query_column] is
    gone when the call is over. *)
Theorem only_the_outputs_are_written sql :
  (∀ T vec, frames [vec] (execute_query_column T sql vec)) ∧
  (∀ T val, frames [val] (execute_query_value T sql val)) ∧
  (∀ val rest, frames (val :: rest).*2 (execute_query_values sql val rest)).
Proof.
  split; [|split]; intros.
  - apply frames_try_catch; [|intros e; apply frames_catch_SQLException].
    eapply frames_ext; [intros st'; apply execute_query_column_try_open|].
    apply frames_bind; [apply frames_open_query | intros _].
    apply frames_bind; [apply frames_result_rowsCount | intros n].
    destruct (bool_decide (n = 0)); [apply frames_ret|].
    apply frames_bind; [apply frames_vec_clear; left | intros _].
    apply frames_with_local. intros r_val.
    apply frames_bind; [by apply frames_same_mem | intros fuel].
    apply frames_while_result_next. intros flag.
    apply frames_bind; [apply frames_raw_query_value; left | intros [|]].
    + apply frames_bind; [apply frames_vec_push_back; right; left | intros _].
      apply frames_ret.
    + apply frames_ret.
  - apply frames_try_catch; [|intros e; apply frames_catch_SQLException].
    eapply frames_ext; [intros st'; apply execute_query_value_try_open|].
    apply frames_bind; [apply frames_open_query | intros _].
    apply frames_one_row_gate, frames_raw_query_value. left.
  - apply frames_try_catch; [|intros e; apply frames_catch_SQLException].
    eapply frames_ext; [intros st'; apply execute_query_values_try_open|].
    apply frames_bind; [apply frames_open_query | intros _].
    apply frames_one_row_gate, frames_raw_query_value_variadic; cbn; [left|].
    intros s Hs. right. by apply list_elem_of_fmap_2.
Qed.

(** ** Sequences of calls *)

Lemma serve_owns_its_result q (st : state) :
  owns_its_result st → owns_its_result (serve q st).2.
Proof.
  intros Hown. destruct q as [T sql vec|T sql val|sql val rest]; cbn [serve].
  - destruct (execute_query_column_template T sql vec st) as (tail & Hq & ->).
    by destruct (template_properties tail sql st Hq) as (_ & Hsup);
      destruct (Hsup Hown) as (? & _).
  - destruct (execute_query_value_template T sql val st) as (tail & Hq & ->).
    by destruct (template_properties tail sql st Hq) as (_ & Hsup);
      destruct (Hsup Hown) as (? & _).
  - destruct (execute_query_values_template sql val rest st) as (tail & Hq & ->).
    by destruct (template_properties tail sql st Hq) as (_ & Hsup);
      destruct (Hsup Hown) as (? & _).
Qed.

(** X9: over any sequence of queries on a connection, of any of the three
    kinds and whatever each of them returns, at most one result set is
    alive at the end, the one [result_] owns: no result set leaks. *)
Theorem no_result_set_leaks qs :
  ∀ st : state, owns_its_result st →
    owns_its_result (serve_all qs st) ∧ (length (live (serve_all qs st)) ≤ 1)%nat.
Proof.
  assert (∀ st : state, owns_its_result st → (length (live st) ≤ 1)%nat) as Hone.
  { intros st. unfold owns_its_result.
    destruct (result_ st); [intros [-> _] | intros ->]; cbn; lia. }
  induction qs as [|q qs IH]; intros st Hown; cbn [serve_all]; [by auto|].
  pose proof (serve_owns_its_result q st Hown) as Hnext.
  destruct (serve q st) as [[b|e| |] st']; cbn in Hnext; auto.
Qed.

(** ** True returns and the log *)

Lemma bind_crash {A B} (m : M A) (f : A → M B) (st st' : state) :
  m st = (Crash, st') → (m ≫= f) st = (Crash, st').
Proof. intros H. unfold_monad. by rewrite H. Qed.

Lemma binding_Ok_supported T rs i a v :
  binding T rs i = Some (a, Ok v) → supported T = true.
Proof. by destruct T. Qed.

(** X10: [execute_query_value] returns true only for a slot type of the
    binding table, and a call that returned true has logged nothing. *)
Theorem execute_query_value_true_is_silent T sql val (st st' : state) :
  execute_query_value T sql val st = (Ret true, st') →
  supported T = true ∧ log st' = log st.
Proof.
  unfold execute_query_value, try_catch.
  rewrite execute_query_value_try_open.
  destruct (open_query sql st) as [o st1] eqn:Hopen.
  destruct (open_query_frame _ _ _ _ Hopen) as (Hmem & Hlog & Ho & Hres).
  destruct Ho as [->|[e ->]].
  2:{ erewrite bind_throw by done. rewrite catch_SQLException_run. done. }
  erewrite bind_ret by done.
  destruct (result_ st1) as [rs|] eqn:Hrs.
  2:{ unfold_prims. unfold_monad. cbn. rewrite Hrs. done. }
  destruct (open_query_result _ _ _ _ Hopen Hrs) as [Hpos Hh].
  rewrite (one_row_gate _ st1 rs Hrs Hpos).
  destruct (length (rs_rows rs)) as [|[|n]] eqn:Hlen; try done.
  rewrite (raw_query_value_run T 1 val _ (on_row (rs_handle rs) (rs_table rs) 1))
    by done.
  destruct (binding T _ 1) as [[a [v|e]]|] eqn:Hb;
    try rewrite catch_SQLException_run; try done.
  intros [= <-]. split; [by eapply binding_Ok_supported|]. by cbn.
Qed.

(** X11: [execute_query_column] returns true only for an element type of the
    binding table, and a call that returned true has logged nothing. *)
Theorem execute_query_column_true_is_silent T sql vec (st st' : state) :
  execute_query_column T sql vec st = (Ret true, st') →
  supported T = true ∧ log st' = log st.
Proof.
  unfold execute_query_column, try_catch.
  rewrite execute_query_column_try_open.
  destruct (open_query sql st) as [o st1] eqn:Hopen.
  destruct (open_query_frame _ _ _ _ Hopen) as (Hmem & Hlog & Ho & Hres).
  destruct Ho as [->|[e ->]].
  2:{ erewrite bind_throw by done. rewrite catch_SQLException_run. done. }
  erewrite bind_ret by done.
  destruct (result_ st1) as [rs|] eqn:Hrs.
  2:{ unfold_prims. unfold_monad. cbn. rewrite Hrs. done. }
  destruct (open_query_result _ _ _ _ Hopen Hrs) as [Hpos Hh].
  erewrite bind_ret by (by apply result_rowsCount_run).
  destruct (bool_decide (Z.of_nat (length (rs_rows rs)) = 0)); [done|].
  set (st2 := observe _ st1).
  destruct (mem st1 !! vec) as [o|] eqn:Hvec.
  2:{ erewrite bind_crash; [done|].
      unfold vec_clear. unfold_monad. cbn. by rewrite Hvec. }
  destruct o as [| |old].
  1,2: erewrite bind_crash; [done|];
       unfold vec_clear; unfold_monad; cbn; by rewrite Hvec.
  erewrite bind_ret by (by eapply vec_clear_run).
  unfold with_local. cbn [mem set_mem].
  erewrite (bind_ret (gets loop_bound)) by reflexivity.
  set (m := <[vec := Vector []]> (mem st2)).
  match goal with
  | |- context [while_result_next ?fuel ?body false ?s] =>
      destruct (column_loop T vec (rs_handle rs) (rs_table rs)
                  (length (rs_rows rs)) 0 fuel false s [] m (default_init T))
        as (st'' & robj' & Hloop & Hmem' & Hlog')
  end.
  { cbn. rewrite Hrs. unfold on_row. destruct rs. cbn in Hpos. by subst. }
  { done. }
  { unfold loop_bound. cbn. rewrite Hrs. lia. }
  { done. }
  { apply list_lookup_insert_eq. by eapply lookup_lt_Some. }
  rewrite Hloop.
  destruct (supported T) eqn:HT.
  - destruct (collect T (rs_table rs) 0 (length (rs_rows rs))).2 as [e|].
    + by rewrite catch_SQLException_run.
    + intros [= _ <-]. split; [done|]. cbn. rewrite Hlog' by done. by cbn.
  - rewrite collect_unsupported by done. cbn. done.
Qed.

(** ** The column index of the string specialization *)

(** X12: the string specialization passes the column index through [int32_t],
    where an index from 2^31 on is negative; converted back to the
    [uint32_t] parameter of [getString] it is the index the caller gave,
    and that column is the one read. *)
Theorem string_index_round_trip idx val (st : state) rs :
  result_ st = Some rs →
  Int.is_uint32 idx →
  (2 ^ 31 ≤ idx → Int.to_int32 idx = idx - 2 ^ 32) ∧
  calls (raw_query_value TString idx val st).2
  = calls st ++ [Call_get GetString (rs_handle rs) idx].
Proof.
  intros Hrs Hidx. split.
  - intros Hbig. unfold Int.is_uint32 in Hidx.
    unfold Int.to_int32, Int.wrap_signed.
    change (2 ^ (32 - 1)) with 2147483648. change (2 ^ 32) with 4294967296 in *.
    change (2 ^ 31) with 2147483648 in *.
    replace (idx + 2147483648) with ((idx - 2147483648) + 1 * 4294967296) by lia.
    rewrite Z.mod_add by lia. rewrite Z.mod_small by lia. lia.
  - rewrite (raw_query_value_run TString idx val st rs Hrs Hidx). cbn.
    by destruct (rs_getString rs idx).
Qed.

End Connection.

End Model.

(** * The templates on concrete inputs *)

(** The runs below are with the scripted driver, on result sets whose
    floating-point fields hold integers; a [double] has 53 significant bits
    and a [float] 24. *)

Local Abbreviation run_column :=
  (execute_query_column (Session := scripted) Float.to_double Float.to_float).
Local Abbreviation run_value :=
  (execute_query_value (Session := scripted) Float.to_double Float.to_float).
Local Abbreviation run_values :=
  (execute_query_values (Session := scripted) Float.to_double Float.to_float).
Local Abbreviation run_slot :=
  (raw_query_value (Session := scripted) Float.to_double Float.to_float).
Local Abbreviation run_slots :=
  (raw_query_value_variadic (Session := scripted) Float.to_double Float.to_float).

(** C1: the recursion over the slots drops the result of each slot but the
    last.  With the slots int, long long, int on a one-row result the second
    extraction fails (unsupported type, logged), and yet the third slot is
    filled from column 3 and the call returns true. *)
Theorem execute_query_values_drops_failed_slot :
  let st := connected (serving (row_abc 0))
              [Scalar (VInt 0); Scalar (VOther "x" 0); Scalar (VInt 0)] in
  let r := run_values "SELECT a,b,c FROM t WHERE id=1"
             (TInt, 0%nat) [(TOther "x", 1%nat); (TInt, 2%nat)] st in
  r.1 = Ret true ∧
  log r.2 = [unsupported_line (TOther "x")] ∧
  mem r.2 = [Scalar (VInt 2); Scalar (VOther "x" 0); Scalar (VInt 8)].
Proof. vm_compute. done. Qed.

(** The claim of C3 that the call returns true if and only if a row was
    present and an extraction succeeded, and that a partly successful read
    returns true, fails on the code: with three rows of which the second
    makes the accessor raise, the first row is read (its extraction succeeds
    and its value is appended), and yet the call returns false. *)
Lemma execute_query_column_partial_counterexample :
  let t := gap_rows 0 in
  let r := run_column TInt "SELECT n FROM t" 0%nat (connected (serving t) [Vector []]) in
  let row_present_and_extracted :=
    tbl_rows t ≠ [] ∧
    ∃ k a v, binding Float.to_double Float.to_float TInt (on_row 0%nat t k) 1 = Some (a, Ok v) in
  row_present_and_extracted ∧
  mem r.2 = [Vector [VInt 2]] ∧
  r.1 = Ret false ∧
  ¬ (r.1 = Ret true ↔ row_present_and_extracted).
Proof.
  intros t r claimed.
  assert claimed as Hclaimed.
  { split; [done|]. by exists 1%nat, GetInt64, (VInt 2). }
  assert (r = (Ret false, r.2)) as Hr by (by vm_compute).
  split; [exact Hclaimed|]. split; [by vm_compute|].
  split; [by rewrite Hr|].
  intros [_ H]. specialize (H Hclaimed). rewrite Hr in H. discriminate H.
Qed.

Lemma execute_query_column_collects_witness :
  ∃ st',
    run_column TInt "SELECT n FROM t" 0%nat (connected (serving (gap_rows 0)) [Vector []])
    = (Ret false, st') ∧
    mem st' = [Vector [VInt 2]] ∧
    log st' = exception_lines "SELECT n FROM t" server_gone.
Proof.
  pose proof (execute_query_column_collects Float.to_double Float.to_float
                TInt "SELECT n FROM t" 0%nat
                (connected (serving (gap_rows 0)) [Vector []]) _ _ []
                eq_refl eq_refl eq_refl) as H.
  cbv zeta in H. destruct H as (_ & H & _).
  destruct H as (b & st' & Hrun & Hmem & Hb & Hlog); [discriminate|].
  exists st'. destruct b.
  - destruct (proj1 Hb eq_refl) as [Hr _]. discriminate Hr.
  - split; [exact Hrun|]. split; [exact Hmem|]. exact (Hlog _ eq_refl).
Defined.

Lemma execute_query_value_exactly_one_row_witness :
  (∃ st',
     run_value TInt "SELECT n FROM t" 0%nat (connected (serving no_rows) [Scalar (VInt 7)])
     = (Ret false, st') ∧ mem st' = [Scalar (VInt 7)] ∧ log st' = []) ∧
  (∃ st',
     run_value TInt "SELECT n FROM t" 0%nat
       (connected (serving (two_rows 0)) [Scalar (VInt 7)])
     = (Ret false, st') ∧ mem st' = [Scalar (VInt 7)] ∧
     log st' = [rows_count_line 2]).
Proof.
  split.
  - destruct (execute_query_value_exactly_one_row Float.to_double Float.to_float
                TInt "SELECT n FROM t"
                0%nat (connected (serving no_rows) [Scalar (VInt 7)])) as (_ & H & _).
    exact (H _ _ eq_refl eq_refl eq_refl).
  - destruct (execute_query_value_exactly_one_row Float.to_double Float.to_float
                TInt "SELECT n FROM t"
                0%nat (connected (serving (two_rows 0)) [Scalar (VInt 7)])) as (_ & _ & H).
    exact (H _ _ eq_refl eq_refl (le_n 2)).
Defined.

(** The claim of C4 that the call returns false when the reconnect fails
    does not hold for a reconnect that fails by returning false: the code
    drops what [reconnect()] returns (lines 130, 167 and 214), the statement
    is dispatched on the session as it is, and the call returns what the
    query gives, here true with the slot filled. *)
Lemma execute_query_value_failed_reconnect_counterexample :
  let st := connected (dropped (Ok false) (row_abc 0)) [Scalar (VInt 7)] in
  let r := run_value TInt "SELECT a FROM t" 0%nat st in
  let reconnect_failed :=
    ∃ s1 s2, isValid (session st) = (Ok false, s1) ∧ reconnect s1 = (Ok false, s2) in
  reconnect_failed ∧
  calls r.2 = [Call_isValid; Call_reconnect; Call_execute "SELECT a FROM t";
               Call_getResultSet; Call_rowsCount 0%nat; Call_rowsCount 0%nat;
               Call_next 0%nat; Call_get GetInt64 0%nat 1] ∧
  mem r.2 = [Scalar (VInt 2)] ∧
  r.1 = Ret true ∧
  ¬ (reconnect_failed → r.1 = Ret false).
Proof.
  intros st r failed.
  assert failed as Hfailed by (by exists (session st), (session st)).
  assert (r.1 = Ret true) as Hr by (by vm_compute).
  split; [exact Hfailed|]. split; [by vm_compute|]. split; [by vm_compute|].
  split; [exact Hr|].
  intros H. specialize (H Hfailed). rewrite Hr in H. discriminate H.
Qed.

Lemma liveness_check_precedes_dispatch_witness :
  let st := connected (dropped (Raise server_gone) (row_abc 0)) [Scalar (VInt 7)] in
  let r := run_value TInt "SELECT a FROM t" 0%nat st in
  calls r.2 = [Call_isValid; Call_reconnect] ∧ r.1 = Ret false.
Proof.
  intros st r.
  destruct (liveness_check_precedes_dispatch Float.to_double Float.to_float "SELECT a FROM t" st)
    as (_ & H & _).
  destruct (H TInt 0%nat) as (cs & Hcalls & _ & _ & Hdropped).
  destruct (Hdropped _ eq_refl) as (cs' & Hcs & _ & Hraise & _).
  destruct (Hraise _ _ eq_refl) as [Hcs' Hr].
  split; [|exact Hr]. fold r in Hcalls. rewrite Hcalls, Hcs, Hcs'. reflexivity.
Defined.

Lemma driver_exceptions_are_caught_witness :
  let st := connected (dropped (Raise server_gone) (row_abc 0)) [Scalar (VInt 7)] in
  let r := run_value TInt "SELECT a FROM t" 0%nat st in
  r.1 = Ret false ∧ log r.2 = exception_lines "SELECT a FROM t" server_gone.
Proof.
  intros st r.
  destruct (driver_exceptions_are_caught Float.to_double Float.to_float "SELECT a FROM t" st)
    as (_ & _ & _ & _ & _ & _ & H & _).
  destruct (H _ _ server_gone eq_refl eq_refl) as (st1 & _ & Hvalue & _).
  unfold r. rewrite (Hvalue TInt 0%nat). split; reflexivity.
Defined.

Lemma raw_query_value_unsupported_witness :
  let st := connected (serving (row_abc 0)) [Scalar (VOther "x" 0)] in
  run_slot (TOther "x") 1 0%nat st
  = (Ret false, set_log [[LText "Unsupported type: "; LText "x"]] st).
Proof.
  intros st.
  exact (raw_query_value_unsupported Float.to_double Float.to_float
           (TOther "x") 1 0%nat st eq_refl).
Defined.

Lemma raw_query_value_supported_witness :
  let rs := on_row 0%nat (big_row 9223372036854775809) 1 in
  let st := mkState (serving (big_row 9223372036854775809)) (Some rs)
              [Scalar (VInt 7)] [] [] 1%nat [0%nat] in
  run_slot TDouble 1 0%nat st
  = (Ret true, filled GetDouble rs 1 0%nat (VDouble 9223372036854775808) st) ∧
  run_slot TInt 1 0%nat st = (Ret true, filled GetInt64 rs 1 0%nat (VInt 2) st) ∧
  run_slot TInt64 1 0%nat st
  = (Ret true, filled GetInt64 rs 1 0%nat (VInt64 4294967298) st) ∧
  run_slot TString 1 0%nat st
  = (Ret true, filled GetString rs 1 0%nat (VString "4294967298") st).
Proof.
  intros rs st.
  destruct (raw_query_value_supported Float.to_double Float.to_float 1 0%nat st rs
              eq_refl)
    as (_ & Hdouble & Hint & Hint64 & _ & _ & Hstring); [by vm_compute|].
  split; [exact (Hdouble 9223372036854775809 eq_refl)|].
  split; [exact (proj1 (Hint 4294967298 eq_refl))|].
  split; [exact (proj1 (Hint64 4294967298 eq_refl))|].
  exact (Hstring "4294967298" eq_refl).
Defined.

Lemma result_is_reset_before_read_witness :
  let st := (run_value TInt "SELECT a FROM t" 0%nat
               (connected (serving (two_rows 0)) [Scalar (VInt 7); Vector []])).2 in
  let r := run_column TInt "SELECT n FROM t" 1%nat st in
  result_ st = Some (on_row 0%nat (two_rows 0) 0) ∧
  (∃ pos, result_ r.2 = Some (on_row 1%nat (two_rows 0) pos)) ∧
  live r.2 = [1%nat] ∧
  0%nat ∉ live r.2.
Proof.
  intros st r.
  destruct (result_is_reset_before_read Float.to_double Float.to_float
              "SELECT n FROM t" st) as (H & _).
  { vm_compute. split; [reflexivity | lia]. }
  destruct (H TInt 1%nat) as (_ & Hnew & _).
  destruct (Hnew (two_rows 0)) as (Hres & Hlive & Hold & _).
  { exists true, (session st), (session st), true.
    eexists _, _. repeat split; reflexivity. }
  split; [reflexivity|]. split; [exact Hres|]. split; [exact Hlive|].
  exact (Hold _ eq_refl).
Defined.

Lemma execute_query_values_in_order_witness :
  ∃ st',
    run_values "SELECT a,b,c FROM t WHERE id=1"
      (TInt, 0%nat) [(TString, 1%nat); (TUInt, 2%nat)]
      (connected (serving (row_abc 0)) [Scalar (VInt 0); Scalar (VString ""); Scalar (VUInt 0)])
    = (Ret true, st') ∧
    mem st' = [Scalar (VInt 2); Scalar (VString "b"); Scalar (VUInt 9)].
Proof.
  edestruct (execute_query_values_in_order Float.to_double Float.to_float
               "SELECT a,b,c FROM t WHERE id=1"
               (TInt, 0%nat) [(TString, 1%nat); (TUInt, 2%nat)]
               (connected (serving (row_abc 0))
                  [Scalar (VInt 0); Scalar (VString ""); Scalar (VUInt 0)]))
    as (_ & _ & H); [reflexivity | reflexivity |].
  destruct (H eq_refl) as (_ & Hfill).
  destruct Hfill as (st' & Hrun & Hst' & _).
  - by vm_compute.
  - vm_compute. repeat split; by eexists _, _.
  - exists st'. split; [exact Hrun|]. rewrite Hst'. reflexivity.
Defined.

Lemma raw_query_value_string_never_false_witness :
  let rs := on_row 0%nat (row_abc 0) 1 in
  let st := mkState (serving (row_abc 0)) (Some rs)
              [Scalar (VString ""); Scalar (VString "")] [] [] 1%nat [0%nat] in
  (run_slots 1 (TString, 0%nat) [(TString, 1%nat)] st).1 = Ret true.
Proof.
  intros rs st.
  destruct (raw_query_value_string_never_false Float.to_double Float.to_float
              (Session := @scripted Z))
    as (_ & _ & _ & _ & H).
  apply (H [(TString, 1%nat)] 1 (TString, 0%nat) st rs).
  - repeat constructor.
  - reflexivity.
  - lia.
  - by vm_compute.
  - intros [|[|j]] Hj; [by exists "a" | by exists "b" | cbn in Hj; lia].
Defined.

Local Abbreviation run_all := (serve_all (Session := scripted) Float.to_double Float.to_float).

Lemma execute_query_values_returns_last_slot_witness :
  ∃ st',
    run_values "SELECT a,b,c FROM t WHERE id=1"
      (TInt, 0%nat) [(TInt, 1%nat); (TOther "x", 2%nat)]
      (connected (serving (row_abc 0))
         [Scalar (VInt 0); Scalar (VInt 0); Scalar (VOther "x" 0)])
    = (Ret false, st') ∧
    mem st' = [Scalar (VInt 2); Scalar (VInt 5); Scalar (VOther "x" 0)].
Proof.
  edestruct (execute_query_values_returns_last_slot Float.to_double Float.to_float
               "SELECT a,b,c FROM t WHERE id=1"
               (TInt, 0%nat) [(TInt, 1%nat); (TOther "x", 2%nat)]
               (connected (serving (row_abc 0))
                  [Scalar (VInt 0); Scalar (VInt 0); Scalar (VOther "x" 0)]))
    as (st' & Hrun & Hmem); [reflexivity | reflexivity | reflexivity | | |].
  - by vm_compute.
  - vm_compute. repeat split; intros; discriminate.
  - exists st'. split; [exact Hrun|]. rewrite Hmem. reflexivity.
Defined.

Lemma raising_slot_stops_extraction_witness :
  ∃ st',
    run_values "SELECT a,b,c FROM t WHERE id=1"
      (TInt, 0%nat) [(TInt, 1%nat); (TInt, 2%nat)]
      (connected (serving (row_a_c 0)) [Scalar (VInt 0); Scalar (VInt 0); Scalar (VInt 0)])
    = (Ret false, st') ∧
    mem st' = [Scalar (VInt 2); Scalar (VInt 0); Scalar (VInt 0)].
Proof.
  pose proof (λ st1 rs,
                raising_slot_stops_extraction Float.to_double Float.to_float
                  "SELECT a,b,c FROM t WHERE id=1"
                  (TInt, 0%nat) [(TInt, 1%nat); (TInt, 2%nat)]
                  (connected (serving (row_a_c 0))
                     [Scalar (VInt 0); Scalar (VInt 0); Scalar (VInt 0)])
                  st1 rs 1%nat TInt 1%nat GetInt64 server_gone) as H.
  edestruct H as (st' & Hrun & Hmem & _);
    [reflexivity | reflexivity | reflexivity | | reflexivity | reflexivity | |].
  - by vm_compute.
  - vm_compute. repeat split; intros; discriminate.
  - exists st'. split; [exact Hrun|]. rewrite Hmem. reflexivity.
Defined.

Lemma null_result_set_is_dereferenced_witness :
  (run_value TInt "UPDATE t SET n = 1" 0%nat (connected updating [Scalar (VInt 7)])).1
  = Crash.
Proof.
  edestruct (null_result_set_is_dereferenced Float.to_double Float.to_float "UPDATE t SET n = 1"
               (connected updating [Scalar (VInt 7)]))
    as (_ & H & _); [reflexivity | reflexivity |].
  rewrite (H TInt 0%nat). reflexivity.
Defined.

Lemma failed_query_keeps_previous_result_witness :
  let st := (run_value TInt "SELECT a FROM t" 0%nat
               (connected (refusing "SELEC a FROM t" (row_abc 0)) [Scalar (VInt 7)])).2 in
  let r := run_value TInt "SELEC a FROM t" 0%nat st in
  r.1 = Ret false ∧
  (get_result_set r.2).1 = Ret (Some (on_row 0%nat (row_abc 0) 1)).
Proof.
  intros st r.
  edestruct (failed_query_keeps_previous_result Float.to_double Float.to_float "SELEC a FROM t" st)
    as (_ & H & _); [reflexivity|].
  pose proof (H TInt 0%nat) as H'. cbv zeta in H'. destruct H' as [Hr Hg].
  split; [exact Hr|]. unfold r. rewrite Hg. reflexivity.
Defined.

Lemma result_set_stays_readable_witness :
  let st := connected (serving (two_rows 0)) [Scalar (VInt 7)] in
  (get_result_set (run_value TInt "SELECT n FROM t" 0%nat st).2).1
  = Ret (Some (on_row 0%nat (two_rows 0) 0)).
Proof.
  intros st.
  edestruct (result_set_stays_readable Float.to_double Float.to_float "SELECT n FROM t" st)
    as (_ & H & _); [reflexivity | reflexivity |].
  destruct H as [Hvalue _]; [discriminate|].
  exact (Hvalue TInt 0%nat).
Defined.

Lemma raw_query_value_narrows_witness :
  let rs := on_row 0%nat (big_row 0) 1 in
  let st := mkState (serving (big_row 0)) (Some rs) [Scalar (VInt 7)] [] [] 1%nat [0%nat] in
  ∃ z', run_slot TInt 1 0%nat st = (Ret true, filled GetInt64 rs 1 0%nat (VInt z') st) ∧
        -2 ^ 31 ≤ z' < 2 ^ 31 ∧ z' ≠ 4294967298.
Proof.
  intros rs st.
  destruct (raw_query_value_narrows Float.to_double Float.to_float
              1 0%nat st rs eq_refl) as (Hint & _);
    [by vm_compute|].
  destruct (Hint 4294967298 eq_refl) as (z' & Hrun & Hrange & _ & Hfits).
  exists z'. split; [exact Hrun|]. split; [exact Hrange|].
  intros Heq. apply Hfits in Heq as [_ Hlt]. by vm_compute in Hlt.
Defined.

Lemma no_result_set_leaks_witness :
  let st := run_all [Column TInt "SELECT n FROM t" 0%nat;
                     Value TInt "SELECT n FROM t" 1%nat;
                     Column TInt "SELECT n FROM t" 0%nat]
              (connected (serving (two_rows 0)) [Vector []; Scalar (VInt 0)]) in
  owns_its_result st ∧ (length (live st) ≤ 1)%nat.
Proof.
  intros st. apply (no_result_set_leaks Float.to_double Float.to_float). reflexivity.
Defined.

Lemma execute_query_value_true_is_silent_witness :
  log (run_value TInt "SELECT a FROM t" 0%nat
         (connected (serving (row_abc 0)) [Scalar (VInt 7)])).2 = [].
Proof.
  destruct (execute_query_value_true_is_silent Float.to_double Float.to_float
              TInt "SELECT a FROM t" 0%nat
              (connected (serving (row_abc 0)) [Scalar (VInt 7)])
              (run_value TInt "SELECT a FROM t" 0%nat
                 (connected (serving (row_abc 0)) [Scalar (VInt 7)])).2)
    as [_ Hlog]; [by vm_compute | exact Hlog].
Defined.

Lemma execute_query_column_true_is_silent_witness :
  log (run_column TInt "SELECT n FROM t" 0%nat
         (connected (serving (two_rows 0)) [Vector []])).2 = [].
Proof.
  destruct (execute_query_column_true_is_silent Float.to_double Float.to_float
              TInt "SELECT n FROM t" 0%nat
              (connected (serving (two_rows 0)) [Vector []])
              (run_column TInt "SELECT n FROM t" 0%nat
                 (connected (serving (two_rows 0)) [Vector []])).2)
    as [_ Hlog]; [by vm_compute | exact Hlog].
Defined.

Lemma string_index_round_trip_witness :
  let rs := on_row 0%nat (row_abc 0) 1 in
  let st := mkState (serving (row_abc 0)) (Some rs) [Scalar (VString "")] [] [] 1%nat
              [0%nat] in
  Int.to_int32 4294967295 = -1 ∧
  calls (run_slot TString 4294967295 0%nat st).2 = [Call_get GetString 0%nat 4294967295].
Proof.
  intros rs st.
  destruct (string_index_round_trip Float.to_double Float.to_float 4294967295 0%nat st rs eq_refl)
    as [Hneg Hcalls]; [by vm_compute|].
  split; [|exact Hcalls]. apply Hneg. by vm_compute.
Defined.
